(** * A closable FIFO channel (include/channel.hpp)

    Shallow embedding of the C++ header [channel.hpp]: the shared core
    [_channel<T>], the two handle classes [channel<T>] and
    [send_channel<T>] that hold it through a [std::shared_ptr], and the
    properties of the close / send / receive protocol.

    Every member function of the core runs its body while holding the one
    mutex [mu], so a call is one atomic transition of the core's fields.  A
    call that reaches [condition_variable::wait] with a false predicate
    suspends the caller with the fields untouched; it is modelled by the
    outcome [Wait], and the code the caller runs once it is woken is a
    definition of its own ([send_wake], [recv_wake]). *)

From stdpp Require Import base option list gmap strings.
From Stdlib Require Import ZArith NArith Lia.

Local Open Scope Z_scope.

(** ** Exit statuses (channel.hpp, lines 11-13) *)

Definition SEND_CLOSED_ERR : Z := 2.
Definition RECV_CLOSED_ERR : Z := 3.
Definition CLOSE_CLOSED_ERR : Z := 4.

(** ** Outcomes of a call, and the monad that threads the object state *)

(** The two [std::condition_variable] members of the core. *)
Inductive condvar := _full | _empty.

(** What a call does to a condition variable. *)
Inductive signal :=
| notify_one (cv : condvar)
| notify_all (cv : condvar).

(** [std::optional::value()] on an empty optional. *)
Inductive exn := bad_optional_access.

(** How a call on a state of type [S] can end:
    - [Ret a s w]: it returns [a], leaves the state [s] and has issued the
      notifications [w], oldest first;
    - [Exit err code]: it wrote [err] to [std::cerr] and called [exit(code)];
    - [Wait cv]: the caller is suspended in [cv.wait], state untouched;
    - [Throw e]: a C++ exception leaves the call;
    - [Undef]: undefined behaviour ([front()] of an empty queue, a dangling
      pointer). *)
Inductive outcome (S A : Type) :=
| Ret (a : A) (s : S) (w : list signal)
| Exit (err : string) (code : Z)
| Wait (cv : condvar)
| Throw (e : exn)
| Undef.

Arguments Ret {S A} a s w.
Arguments Exit {S A} err code.
Arguments Wait {S A} cv.
Arguments Throw {S A} e.
Arguments Undef {S A}.

Definition M (S A : Type) : Type := S -> outcome S A.

Definition M_ret {S A} (a : A) : M S A := fun s => Ret a s [].

Definition M_bind {S A B} (k : A -> M S B) (m : M S A) : M S B :=
  fun s =>
    match m s with
    | Ret a s' w =>
        match k a s' with
        | Ret b s'' w' => Ret b s'' (w ++ w')
        | Exit err code => Exit err code
        | Wait cv => Wait cv
        | Throw e => Throw e
        | Undef => Undef
        end
    | Exit err code => Exit err code
    | Wait cv => Wait cv
    | Throw e => Throw e
    | Undef => Undef
    end.

#[export] Instance M_mret {S} : MRet (M S) := @M_ret S.
#[export] Instance M_mbind {S} : MBind (M S) := @M_bind S.

Definition get {S} : M S S := fun s => Ret s s [].
Definition modify {S} (f : S -> S) : M S unit := fun s => Ret tt (f s) [].
Definition notify {S} (n : signal) : M S unit := fun s => Ret tt s [n].
Definition exit {S A} (err : string) (code : Z) : M S A := fun _ => Exit err code.
Definition throw {S A} (e : exn) : M S A := fun _ => Throw e.
Definition undefined {S A} : M S A := fun _ => Undef.

(** [cv.wait(l, pred)]: returns at once when [pred] holds, suspends the
    caller otherwise. *)
Definition wait {S} (cv : condvar) (pred : S -> bool) : M S unit :=
  fun s => if pred s then Ret tt s [] else Wait cv.

(** Run the calls [f x] for the [x] of a list, in order. *)
Fixpoint mapM {S A B} (f : A -> M S B) (l : list A) : M S (list B) :=
  match l with
  | [] => mret []
  | x :: l' => y ← f x; ys ← mapM f l'; mret (y :: ys)
  end.

(** ** The core: [template <typename T> class _channel] *)

Record _channel (T : Type) := mk_channel {
  cap : N;            (* size_t cap *)
  q : list T;         (* std::queue<T> q, front of the queue first *)
  _closed : bool
}.

Arguments mk_channel {T} cap q _closed.
Arguments cap {T} _.
Arguments q {T} _.
Arguments _closed {T} _.

Module Core.
Section core.
Context {T : Type}.

Definition set_q (l : list T) (c : _channel T) : _channel T :=
  mk_channel (cap c) l (_closed c).

Definition set_closed (b : bool) (c : _channel T) : _channel T :=
  mk_channel (cap c) (q c) b.

(** [q.size()], a [size_t]. *)
Definition size (c : _channel T) : N := N.of_nat (length (q c)).

(** [q.empty()] *)
Definition empty (c : _channel T) : bool :=
  match q c with [] => true | _ :: _ => false end.

(** [_channel(size_t cap) : cap(cap)], the other members default
    initialised: empty queue, [_closed = false]. *)
Definition new (cap : N) : _channel T := mk_channel cap [] false.

(** [check_closed(msg, exit_code)]; both callers pass the exit code, the
    default of 1 is never used. *)
Definition check_closed (msg : string) (exit_code : Z) : M (_channel T) unit :=
  c ← get;
  if _closed c then exit msg exit_code else mret tt.

(** The loop [while (!q.empty()) q.pop();] *)
Fixpoint pop_all (l : list T) : list T :=
  match l with
  | [] => []
  | _ :: l' => pop_all l'
  end.

Definition flush : M (_channel T) unit :=
  modify (fun c => set_q (pop_all (q c)) c);;
  notify (notify_one _full).

Definition closed : M (_channel T) bool :=
  c ← get; mret (_closed c).

Definition close : M (_channel T) unit :=
  check_closed "Attempt to close a closed channel" CLOSE_CLOSED_ERR;;
  modify (set_closed true);;
  modify (set_q []);;
  notify (notify_all _full);;
  notify (notify_all _empty).

(** The predicate [send] waits for on [_full]. *)
Definition send_ready (c : _channel T) : bool :=
  _closed c || ((cap c =? 0)%N || (size c <? cap c)%N).

(** [send] from its [_full.wait] on: what a sender runs when it reaches
    the wait, and again each time it is woken. *)
Definition send_wake (t : T) : M (_channel T) bool :=
  wait _full send_ready;;
  c ← get;
  if _closed c then mret false
  else
    modify (fun c => set_q (q c ++ [t]) c);;
    notify (notify_one _empty);;
    mret true.

Definition send (t : T) : M (_channel T) bool :=
  c ← get;
  if _closed c then mret false else send_wake t.

Definition recv_immed : M (_channel T) (option T) :=
  c ← get;
  match q c with
  | [] => mret None
  | t :: rest =>
      modify (set_q rest);;
      notify (notify_one _full);;
      mret (Some t)
  end.

(** The predicate [recv] waits for on [_empty]. *)
Definition recv_ready (c : _channel T) : bool :=
  _closed c || negb (empty c).

(** [recv] from its [_empty.wait] on. *)
Definition recv_wake : M (_channel T) T :=
  wait _empty recv_ready;;
  check_closed "Attempt to receive on a closed channel" RECV_CLOSED_ERR;;
  c ← get;
  match q c with
  | [] => undefined
  | t :: rest =>
      modify (set_q rest);;
      notify (notify_one _full);;
      mret t
  end.

Definition recv : M (_channel T) T :=
  check_closed "Attempt to receive on a closed channel" RECV_CLOSED_ERR;;
  recv_wake.

(** [~_channel()]: [closed()], [close()] and [flush()] each take the lock
    on their own. *)
Definition dtor : M (_channel T) unit :=
  b ← closed;
  (if negb b then close else mret tt);;
  flush.

End core.
End Core.

(** ** Shared ownership: [std::shared_ptr<_channel<T>>] *)

(** An address of a core on the free store. *)
Abbreviation loc := positive.

(** What [std::make_shared] allocates: the object and its use count. *)
Record cell (T : Type) := mk_cell {
  obj : _channel T;
  use_count : nat
}.

Arguments mk_cell {T} obj use_count.
Arguments obj {T} _.
Arguments use_count {T} _.

(** The free store: the cores alive, by address. *)
Abbreviation heap T := (gmap loc (cell T)).

Module SharedPtr.
Section shared_ptr.
Context {T : Type}.

(** [std::make_shared<_channel<T>>(cap)] *)
Definition make_shared (cap : N) : M (heap T) loc :=
  fun h =>
    let p := fresh (dom h) in
    Ret p (<[p := mk_cell (Core.new cap) 1]> h) [].

(** Copy construction of a [shared_ptr]: one more owner. *)
Definition copy (p : loc) : M (heap T) loc :=
  fun h =>
    match h !! p with
    | Some c => Ret p (<[p := mk_cell (obj c) (S (use_count c))]> h) []
    | None => Undef
    end.

(** [p->m()]: run the member function [m] on the core [p] points to. *)
Definition deref {A} (p : loc) (m : M (_channel T) A) : M (heap T) A :=
  fun h =>
    match h !! p with
    | Some c =>
        match m (obj c) with
        | Ret a o w => Ret a (<[p := mk_cell o (use_count c)]> h) w
        | Exit err code => Exit err code
        | Wait cv => Wait cv
        | Throw e => Throw e
        | Undef => Undef
        end
    | None => Undef
    end.

(** Destruction of a [shared_ptr]: one owner fewer; the last owner runs
    [~_channel()] and frees the core. *)
Definition release (p : loc) : M (heap T) unit :=
  h ← get;
  match h !! p with
  | Some c =>
      match use_count c with
      | 0%nat => undefined
      | 1%nat => deref p Core.dtor;; modify (delete p)
      | S n => modify (<[p := mk_cell (obj c) n]>)
      end
  | None => undefined
  end.

End shared_ptr.
End SharedPtr.

(** ** The bidirectional handle: [template <typename T> class channel] *)

Module channel.
Record t := mk { ch : loc }.

Section channel.
Context {T : Type}.

(** [channel(size_t cap) : ch(std::make_shared<_channel<T>>(cap))] *)
Definition new (cap : N) : M (heap T) t :=
  p ← SharedPtr.make_shared cap; mret (mk p).

Definition send (c : t) (x : T) : M (heap T) bool :=
  SharedPtr.deref (ch c) (Core.send x).

(** [return ch->recv_immed().value();] *)
Definition recv_immed (c : t) : M (heap T) (option T) :=
  o ← SharedPtr.deref (ch c) Core.recv_immed;
  match o with
  | Some x => mret (Some x)
  | None => throw bad_optional_access
  end.

Definition recv (c : t) : M (heap T) T :=
  SharedPtr.deref (ch c) Core.recv.

Definition closed (c : t) : M (heap T) bool :=
  SharedPtr.deref (ch c) Core.closed.

Definition close (c : t) : M (heap T) unit :=
  b ← closed c;
  (if negb b then SharedPtr.deref (ch c) Core.close else mret tt);;
  SharedPtr.deref (ch c) Core.flush.

(** [~channel()], then the destruction of the member [ch]. *)
Definition dtor (c : t) : M (heap T) unit :=
  b ← closed c;
  (if negb b then SharedPtr.deref (ch c) Core.close else mret tt);;
  SharedPtr.release (ch c).

End channel.
End channel.

(** ** The send-only handle: [template <typename T> class send_channel] *)

Module send_channel.
Record t := mk { ch : loc }.

Section send_channel.
Context {T : Type}.

(** [send_channel(size_t cap)] *)
Definition new (cap : N) : M (heap T) t :=
  p ← SharedPtr.make_shared cap; mret (mk p).

(** [send_channel(const channel<U> &c) : ch(c.ch)] *)
Definition of_channel (c : channel.t) : M (heap T) t :=
  p ← SharedPtr.copy (channel.ch c); mret (mk p).

Definition send (s : t) (x : T) : M (heap T) bool :=
  SharedPtr.deref (ch s) (Core.send x).

Definition closed (s : t) : M (heap T) bool :=
  SharedPtr.deref (ch s) Core.closed.

Definition close (s : t) : M (heap T) unit :=
  b ← closed s;
  (if negb b then SharedPtr.deref (ch s) Core.close else mret tt);;
  SharedPtr.deref (ch s) Core.flush.

(** [~send_channel()], then the destruction of the member [ch]. *)
Definition dtor (s : t) : M (heap T) unit :=
  b ← closed s;
  (if negb b then SharedPtr.deref (ch s) Core.close else mret tt);;
  SharedPtr.release (ch s).

End send_channel.
End send_channel.

(** ** Sequences of calls on one core *)

(** The calls threads can make on a core, with the two continuations a
    woken waiter runs. *)
Inductive call (T : Type) :=
| call_send (t : T)
| call_send_wake (t : T)
| call_recv
| call_recv_wake
| call_recv_immed
| call_close
| call_flush
| call_closed.

Arguments call_send {T} t.
Arguments call_send_wake {T} t.
Arguments call_recv {T}.
Arguments call_recv_wake {T}.
Arguments call_recv_immed {T}.
Arguments call_close {T}.
Arguments call_flush {T}.
Arguments call_closed {T}.

(** What a call hands back. *)
Inductive value (T : Type) :=
| v_unit
| v_bool (b : bool)
| v_item (t : T)
| v_opt (o : option T).

Arguments v_unit {T}.
Arguments v_bool {T} b.
Arguments v_item {T} t.
Arguments v_opt {T} o.

(** How a receiver takes an item: [recv] or [recv_immed]. *)
Inductive recv_kind := blocking | immediate.

Section traces.
Context {T : Type}.

Definition exec (o : call T) : M (_channel T) (value T) :=
  match o with
  | call_send t => b ← Core.send t; mret (v_bool b)
  | call_send_wake t => b ← Core.send_wake t; mret (v_bool b)
  | call_recv => t ← Core.recv; mret (v_item t)
  | call_recv_wake => t ← Core.recv_wake; mret (v_item t)
  | call_recv_immed => o ← Core.recv_immed; mret (v_opt o)
  | call_close => Core.close;; mret v_unit
  | call_flush => Core.flush;; mret v_unit
  | call_closed => b ← Core.closed; mret (v_bool b)
  end.

(** The core as the next call finds it: a call that returns leaves its
    final state, a caller that is suspended leaves the core as it was, and
    after [exit] (or undefined behaviour) there is no next call. *)
Definition next (o : call T) (c : _channel T) : option (_channel T) :=
  match exec o c with
  | Ret _ c' _ => Some c'
  | Wait _ => Some c
  | Exit _ _ | Throw _ | Undef => None
  end.

Fixpoint run (os : list (call T)) (c : _channel T) : option (_channel T) :=
  match os with
  | [] => Some c
  | o :: os' =>
      match next o c with
      | Some c' => run os' c'
      | None => None
      end
  end.

Definition recv_by (k : recv_kind) : M (_channel T) (option T) :=
  match k with
  | blocking => t ← Core.recv; mret (Some t)
  | immediate => Core.recv_immed
  end.

(** The same through a [channel] handle. *)
Definition channel_recv_by (c : channel.t) (k : recv_kind) : M (heap T) (option T) :=
  match k with
  | blocking => t ← channel.recv c; mret (Some t)
  | immediate => channel.recv_immed c
  end.

(** The two invariants of the data model. *)
Definition within_capacity (c : _channel T) : Prop :=
  (0 < cap c)%N -> (Core.size c <= cap c)%N.

Definition closed_is_empty (c : _channel T) : Prop :=
  _closed c = true -> q c = [].

(** The five shapes of a transition: nothing changes; an item is pushed
    at the back of an open core that has room; the front item is popped;
    an open core is closed and emptied; the buffer is flushed. *)
Inductive transition (c : _channel T) : _channel T -> Prop :=
| tr_same : transition c c
| tr_push t :
    _closed c = false ->
    ((cap c =? 0)%N || (Core.size c <? cap c)%N) = true ->
    transition c (Core.set_q (q c ++ [t]) c)
| tr_pop t rest :
    q c = t :: rest ->
    transition c (Core.set_q rest c)
| tr_close :
    _closed c = false ->
    transition c (mk_channel (cap c) [] true)
| tr_flush :
    transition c (Core.set_q [] c).

(** The body shared by [close()] and the destructors of both handles:
    close the core unless it is closed already. *)
Definition closed_core (o : _channel T) : _channel T :=
  if _closed o then o else mk_channel (cap o) [] true.

Definition close_signals (o : _channel T) : list signal :=
  if _closed o then [] else [notify_all _full; notify_all _empty].

End traces.

(** Two handles on one open core holding one item: the state after
    [channel<int> c(2); send_channel<int> s(c); c.send(7);]. *)
Definition shared_heap : heap Z :=
  {[ 1%positive := mk_cell (mk_channel 2 [7] false) 2 ]}.

(** ** The shorthand operators *)

Section operators.
Context {T : Type}.

(** [friend void operator>>(T &&t, _channel<T> &ch) { ch.send(std::move(t)); }]:
    the result of [send] is dropped. *)
Definition core_shr (t : T) : M (_channel T) unit :=
  Core.send t;; mret tt.

(** [friend void operator<<(T &t, _channel<T> &ch) { t = ch.recv(); }]: the
    value returned is the one assigned to [t]. *)
Definition core_shl : M (_channel T) T :=
  t ← Core.recv; mret t.

(** [friend void operator>>(T &&t, channel<T> &ch) { ch.send(std::move(t)); }] *)
Definition channel_shr (c : channel.t) (t : T) : M (heap T) unit :=
  channel.send c t;; mret tt.

(** [friend void operator<<(T &t, channel<T> &ch) { t = ch.recv(); }] *)
Definition channel_shl (c : channel.t) : M (heap T) T :=
  t ← channel.recv c; mret t.

(** [friend void operator>>(T &&t, send_channel<T> &ch) { ch.send(std::move(t)); }] *)
Definition send_channel_shr (s : send_channel.t) (t : T) : M (heap T) unit :=
  send_channel.send s t;; mret tt.

End operators.

(** ** Book-keeping of what went in and what came out *)

Section tally.
Context {T : Type}.

(** The item a call has put into the buffer: the argument of a [send] that
    returned [true]. *)
Definition sent_by (o : call T) (v : value T) : list T :=
  match o, v with
  | call_send t, v_bool true => [t]
  | call_send_wake t, v_bool true => [t]
  | _, _ => []
  end.

(** The item a call has handed to its caller. *)
Definition got (v : value T) : list T :=
  match v with
  | v_item t => [t]
  | v_opt (Some t) => [t]
  | _ => []
  end.

(** [close] and [flush] are the calls that throw buffered items away. *)
Definition discards (o : call T) : bool :=
  match o with
  | call_close | call_flush => true
  | _ => false
  end.

(** [run], recording the items sent and the items received, oldest
    first. *)
Fixpoint tally (os : list (call T)) (c : _channel T) (sent rcvd : list T)
  : option (list T * list T * _channel T) :=
  match os with
  | [] => Some (sent, rcvd, c)
  | o :: os' =>
      match exec o c with
      | Ret v c' _ => tally os' c' (sent ++ sent_by o v) (rcvd ++ got v)
      | Wait _ => tally os' c sent rcvd
      | Exit _ _ | Throw _ | Undef => None
      end
  end.

End tally.

(** ** Sequences of calls through handles *)

(** What a program does with handles: construct them, call their member
    functions, destroy them. *)
Inductive hcall (T : Type) :=
| h_channel (cap : N)                      (* channel<T> c(cap) *)
| h_send_channel (cap : N)                 (* send_channel<T> s(cap) *)
| h_narrow (c : channel.t)                 (* send_channel<T> s(c) *)
| h_send (c : channel.t) (x : T)
| h_recv (c : channel.t)
| h_recv_immed (c : channel.t)
| h_closed (c : channel.t)
| h_close (c : channel.t)
| h_dtor (c : channel.t)
| hs_send (s : send_channel.t) (x : T)
| hs_closed (s : send_channel.t)
| hs_close (s : send_channel.t)
| hs_dtor (s : send_channel.t).

Arguments h_channel {T} cap.
Arguments h_send_channel {T} cap.
Arguments h_narrow {T} c.
Arguments h_send {T} c x.
Arguments h_recv {T} c.
Arguments h_recv_immed {T} c.
Arguments h_closed {T} c.
Arguments h_close {T} c.
Arguments h_dtor {T} c.
Arguments hs_send {T} s x.
Arguments hs_closed {T} s.
Arguments hs_close {T} s.
Arguments hs_dtor {T} s.

Section handle_traces.
Context {T : Type}.

(** The call with its result dropped. *)
Definition hexec (o : hcall T) : M (heap T) unit :=
  match o with
  | h_channel n => channel.new n;; mret tt
  | h_send_channel n => send_channel.new n;; mret tt
  | h_narrow c => send_channel.of_channel c;; mret tt
  | h_send c x => channel.send c x;; mret tt
  | h_recv c => channel.recv c;; mret tt
  | h_recv_immed c => channel.recv_immed c;; mret tt
  | h_closed c => channel.closed c;; mret tt
  | h_close c => channel.close c
  | h_dtor c => channel.dtor c
  | hs_send s x => send_channel.send s x;; mret tt
  | hs_closed s => send_channel.closed s;; mret tt
  | hs_close s => send_channel.close s
  | hs_dtor s => send_channel.dtor s
  end.


(** The free store as the next call finds it.  A suspended caller leaves it
    as it was.  So does the exception of [channel::recv_immed], which is
    raised after the core's [recv_immed] has returned without touching the
    buffer. *)
Definition hnext (o : hcall T) (h : heap T) : option (heap T) :=
  match hexec o h with
  | Ret _ h' _ => Some h'
  | Wait _ | Throw _ => Some h
  | Exit _ _ | Undef => None
  end.

Fixpoint hrun (os : list (hcall T)) (h : heap T) : option (heap T) :=
  match os with
  | [] => Some h
  | o :: os' =>
      match hnext o h with
      | Some h' => hrun os' h'
      | None => None
      end
  end.

(** Every core alive has an owner and keeps the two invariants of the data
    model. *)
Definition heap_ok (h : heap T) : Prop :=
  forall p cl, h !! p = Some cl ->
    (1 <= use_count cl)%nat /\
    closed_is_empty (obj cl) /\ within_capacity (obj cl).

(** A computation on the free store that touches no core but [p]. *)
Definition frames {A} (p : loc) (m : M (heap T) A) : Prop :=
  forall h a h' w, m h = Ret a h' w ->
    forall p', p' <> p -> h' !! p' = h !! p'.

(** A computation that hands on a free store in which [heap_ok] holds. *)
Definition keeps_ok {A} (m : M (heap T) A) : Prop :=
  forall h a h' w, heap_ok h -> m h = Ret a h' w -> heap_ok h'.

End handle_traces.

(** ** The member functions of the core, case by case *)

Ltac run_m :=
  cbv [mbind mret M_mbind M_mret M_bind M_ret get modify notify exit throw
       undefined wait].

Ltac core_unfold :=
  unfold exec, recv_by, Core.dtor, Core.recv, Core.recv_wake, Core.recv_immed,
    Core.send, Core.send_wake, Core.close, Core.closed, Core.flush,
    Core.check_closed.

Ltac rew_hyps :=
  repeat match goal with H : ?l = _ |- context [?l] => rewrite H end.

Ltac crunch :=
  core_unfold; run_m; unfold Core.send_ready, Core.recv_ready, Core.empty;
  repeat (progress (rew_hyps; cbn)); try reflexivity.

Section core_facts.
Context {T : Type}.
Implicit Types (c : _channel T) (t : T).

Lemma pop_all_nil (l : list T) : Core.pop_all l = [].
Proof. induction l as [|x l IH]; [reflexivity | exact IH]. Qed.

Lemma set_q_same c : Core.set_q (q c) c = c.
Proof. destruct c; reflexivity. Qed.

Lemma flush_ret c :
  Core.flush c = Ret tt (Core.set_q [] c) [notify_one _full].
Proof. core_unfold; run_m. rewrite pop_all_nil. reflexivity. Qed.

Lemma closed_ret c : Core.closed c = Ret (_closed c) c [].
Proof. reflexivity. Qed.

Lemma close_open c :
  _closed c = false ->
  Core.close c =
    Ret tt (mk_channel (cap c) [] true) [notify_all _full; notify_all _empty].
Proof. intros Hc. crunch. Qed.

Lemma close_closed c :
  _closed c = true ->
  Core.close c = Exit "Attempt to close a closed channel" CLOSE_CLOSED_ERR.
Proof. intros Hc. crunch. Qed.

Lemma send_wake_closed t c :
  _closed c = true -> Core.send_wake t c = Ret false c [].
Proof. intros Hc. crunch. Qed.

Lemma send_closed t c :
  _closed c = true -> Core.send t c = Ret false c [].
Proof. intros Hc. crunch. Qed.

Lemma send_wake_room t c :
  _closed c = false ->
  ((cap c =? 0)%N || (Core.size c <? cap c)%N) = true ->
  Core.send_wake t c = Ret true (Core.set_q (q c ++ [t]) c) [notify_one _empty].
Proof. intros Hc Hr. crunch. Qed.

Lemma send_wake_full t c :
  _closed c = false ->
  ((cap c =? 0)%N || (Core.size c <? cap c)%N) = false ->
  Core.send_wake t c = Wait _full.
Proof. intros Hc Hr. crunch. Qed.

(** The first test of [send] is subsumed by the wait and the test after
    it: a sender that is woken behaves as one that calls [send] anew. *)
Lemma send_wake_eq t c : Core.send_wake t c = Core.send t c.
Proof.
  destruct (_closed c) eqn:Hc.
  - rewrite send_wake_closed, send_closed by assumption. reflexivity.
  - unfold Core.send at 1. run_m. rewrite Hc.
    destruct (Core.send_wake t c); reflexivity.
Qed.

Lemma send_room t c :
  _closed c = false ->
  ((cap c =? 0)%N || (Core.size c <? cap c)%N) = true ->
  Core.send t c = Ret true (Core.set_q (q c ++ [t]) c) [notify_one _empty].
Proof. intros. rewrite <- send_wake_eq. apply send_wake_room; assumption. Qed.

Lemma send_full t c :
  _closed c = false ->
  ((cap c =? 0)%N || (Core.size c <? cap c)%N) = false ->
  Core.send t c = Wait _full.
Proof. intros. rewrite <- send_wake_eq. apply send_wake_full; assumption. Qed.

Lemma recv_immed_empty c :
  q c = [] -> Core.recv_immed c = Ret None c [].
Proof. intros Hq. crunch. Qed.

Lemma recv_immed_front c t rest :
  q c = t :: rest ->
  Core.recv_immed c = Ret (Some t) (Core.set_q rest c) [notify_one _full].
Proof. intros Hq. crunch. Qed.

Lemma recv_wake_closed c :
  _closed c = true ->
  Core.recv_wake c = Exit "Attempt to receive on a closed channel" RECV_CLOSED_ERR.
Proof. intros Hc. crunch. Qed.

Lemma recv_closed c :
  _closed c = true ->
  Core.recv c = Exit "Attempt to receive on a closed channel" RECV_CLOSED_ERR.
Proof. intros Hc. crunch. Qed.

Lemma recv_wake_empty c :
  _closed c = false -> q c = [] -> Core.recv_wake c = Wait _empty.
Proof. intros Hc Hq. crunch. Qed.

Lemma recv_wake_front c t rest :
  _closed c = false -> q c = t :: rest ->
  Core.recv_wake c = Ret t (Core.set_q rest c) [notify_one _full].
Proof. intros Hc Hq. crunch. Qed.

Lemma recv_wake_eq c : Core.recv_wake c = Core.recv c.
Proof.
  destruct (_closed c) eqn:Hc.
  - rewrite recv_wake_closed, recv_closed by assumption. reflexivity.
  - unfold Core.recv, Core.check_closed at 1. run_m. rewrite Hc.
    destruct (Core.recv_wake c); reflexivity.
Qed.

Lemma recv_empty c :
  _closed c = false -> q c = [] -> Core.recv c = Wait _empty.
Proof. intros. rewrite <- recv_wake_eq. apply recv_wake_empty; assumption. Qed.

Lemma recv_front c t rest :
  _closed c = false -> q c = t :: rest ->
  Core.recv c = Ret t (Core.set_q rest c) [notify_one _full].
Proof. intros. rewrite <- recv_wake_eq. eapply recv_wake_front; eassumption. Qed.

(** [front()] is never taken of an empty queue. *)
Lemma recv_defined c : Core.recv c <> Undef.
Proof.
  destruct (_closed c) eqn:Hc.
  - rewrite recv_closed by assumption. discriminate.
  - destruct (q c) as [|t rest] eqn:Hq.
    + rewrite recv_empty by assumption. discriminate.
    + rewrite (recv_front c t rest) by assumption. discriminate.
Qed.

End core_facts.

(** ** What one call can do to the fields *)

Section trace_facts.
Context {T : Type}.
Implicit Types (c : _channel T) (t : T) (o : call T) (os : list (call T)).

Lemma send_transition t c c' :
  next (call_send t) c = Some c' -> transition c c'.
Proof.
  unfold next, exec. run_m.
  destruct (_closed c) eqn:Hc.
  - rewrite send_closed by assumption. intros [= <-]. constructor.
  - destruct ((cap c =? 0)%N || (Core.size c <? cap c)%N) eqn:Hr.
    + rewrite send_room by assumption. intros [= <-].
      apply tr_push; assumption.
    + rewrite send_full by assumption. intros [= <-]. constructor.
Qed.

Lemma recv_transition c c' :
  next call_recv c = Some c' -> transition c c'.
Proof.
  unfold next, exec. run_m.
  destruct (_closed c) eqn:Hc.
  - rewrite recv_closed by assumption. discriminate.
  - destruct (q c) as [|t rest] eqn:Hq.
    + rewrite recv_empty by assumption. intros [= <-]. constructor.
    + rewrite (recv_front c t rest) by assumption. intros [= <-].
      eapply tr_pop; eassumption.
Qed.

Lemma next_transition o c c' : next o c = Some c' -> transition c c'.
Proof.
  destruct o as [t|t| | | | | |].
  - apply send_transition.
  - unfold next, exec. run_m. rewrite send_wake_eq. apply send_transition.
  - apply recv_transition.
  - unfold next, exec. run_m. rewrite recv_wake_eq. apply recv_transition.
  - unfold next, exec. run_m.
    destruct (q c) as [|t rest] eqn:Hq.
    + rewrite recv_immed_empty by assumption. intros [= <-]. constructor.
    + rewrite (recv_immed_front c t rest) by assumption. intros [= <-].
      eapply tr_pop; eassumption.
  - unfold next, exec. run_m.
    destruct (_closed c) eqn:Hc.
    + rewrite close_closed by assumption. discriminate.
    + rewrite close_open by assumption. intros [= <-].
      apply tr_close; assumption.
  - unfold next, exec. run_m. rewrite flush_ret. intros [= <-].
    apply tr_flush.
  - unfold next, exec. run_m. rewrite closed_ret. intros [= <-].
    constructor.
Qed.

Lemma transition_cap c c' : transition c c' -> cap c' = cap c.
Proof. destruct 1; reflexivity. Qed.

Lemma transition_closed c c' :
  transition c c' -> _closed c = true -> _closed c' = true.
Proof. destruct 1; cbn; congruence. Qed.

Lemma transition_closed_is_empty c c' :
  transition c c' -> closed_is_empty c -> closed_is_empty c'.
Proof.
  unfold closed_is_empty. destruct 1 as [|t Hc Hr|t rest Hq|Hc|]; cbn; intros Hinv.
  - exact Hinv.
  - congruence.
  - intros Hc. rewrite Hinv in Hq by assumption. discriminate.
  - reflexivity.
  - reflexivity.
Qed.

Lemma transition_within_capacity c c' :
  transition c c' -> within_capacity c -> within_capacity c'.
Proof.
  unfold within_capacity, Core.size.
  destruct 1 as [|t Hc Hr|t rest Hq|Hc|]; cbn; intros Hinv Hpos.
  - auto.
  - rewrite length_app. cbn.
    apply orb_true_iff in Hr as [Hr|Hr].
    + apply N.eqb_eq in Hr. lia.
    + apply N.ltb_lt in Hr. unfold Core.size in Hr. lia.
  - specialize (Hinv Hpos). rewrite Hq in Hinv. cbn in Hinv. lia.
  - lia.
  - lia.
Qed.

(** The same facts along a sequence of calls. *)
Lemma run_cap os c c' : run os c = Some c' -> cap c' = cap c.
Proof.
  revert c. induction os as [|o os IH]; cbn; intros c.
  - intros [= <-]. reflexivity.
  - destruct (next o c) as [c1|] eqn:Hn; [|discriminate].
    intros Hr. rewrite (IH _ Hr).
    apply transition_cap, (next_transition o). exact Hn.
Qed.

Lemma run_closed os c c' :
  run os c = Some c' -> _closed c = true -> _closed c' = true.
Proof.
  revert c. induction os as [|o os IH]; cbn; intros c.
  - intros [= <-]. auto.
  - destruct (next o c) as [c1|] eqn:Hn; [|discriminate].
    intros Hr Hc. apply (IH _ Hr).
    eapply transition_closed; [apply (next_transition o); exact Hn | exact Hc].
Qed.

Lemma run_closed_is_empty os c c' :
  run os c = Some c' -> closed_is_empty c -> closed_is_empty c'.
Proof.
  revert c. induction os as [|o os IH]; cbn; intros c.
  - intros [= <-]. auto.
  - destruct (next o c) as [c1|] eqn:Hn; [|discriminate].
    intros Hr Hinv. apply (IH _ Hr).
    eapply transition_closed_is_empty;
      [apply (next_transition o); exact Hn | exact Hinv].
Qed.

Lemma run_within_capacity os c c' :
  run os c = Some c' -> within_capacity c -> within_capacity c'.
Proof.
  revert c. induction os as [|o os IH]; cbn; intros c.
  - intros [= <-]. auto.
  - destruct (next o c) as [c1|] eqn:Hn; [|discriminate].
    intros Hr Hinv. apply (IH _ Hr).
    eapply transition_within_capacity;
      [apply (next_transition o); exact Hn | exact Hinv].
Qed.

Lemma new_closed_is_empty n : closed_is_empty (Core.new (T:=T) n).
Proof. intros _. reflexivity. Qed.

Lemma new_within_capacity n : within_capacity (Core.new (T:=T) n).
Proof. intros _. unfold Core.size. cbn. lia. Qed.

End trace_facts.

(** ** Runs of sends and of receives *)

Section fifo_facts.
Context {T : Type}.
Implicit Types (c : _channel T) (xs : list T) (ks : list recv_kind).

Lemma mapM_cons {S A B} (f : A -> M S B) x l (s : S) :
  mapM f (x :: l) s =
    match f x s with
    | Ret y s1 w1 =>
        match mapM f l s1 with
        | Ret ys s2 w2 => Ret (y :: ys) s2 (w1 ++ w2)
        | Exit err code => Exit err code
        | Wait cv => Wait cv
        | Throw e => Throw e
        | Undef => Undef
        end
    | Exit err code => Exit err code
    | Wait cv => Wait cv
    | Throw e => Throw e
    | Undef => Undef
    end.
Proof.
  cbn. run_m. destruct (f x s) as [y s1 w1| | | |]; try reflexivity.
  destruct (mapM f l s1) as [ys s2 w2| | | |]; try reflexivity.
  rewrite app_nil_r. reflexivity.
Qed.

(** On an open core every send that returns has pushed its item. *)
Lemma sends_open xs : forall c bs c1 w,
  _closed c = false ->
  mapM Core.send xs c = Ret bs c1 w ->
  bs = repeat true (length xs) /\ c1 = Core.set_q (q c ++ xs) c.
Proof.
  induction xs as [|x xs IH]; intros c bs c1 w Hc.
  - cbn. intros [= <- <- <-]. rewrite app_nil_r, set_q_same. auto.
  - rewrite mapM_cons.
    destruct ((cap c =? 0)%N || (Core.size c <? cap c)%N) eqn:Hr.
    + rewrite send_room by assumption.
      destruct (mapM Core.send xs _) as [ys s2 w2| | | |] eqn:Hm;
        try discriminate.
      intros [= <- <- <-].
      apply IH in Hm as [-> ->]; [|exact Hc].
      cbn. rewrite <- app_assoc. auto.
    + rewrite send_full by assumption. discriminate.
Qed.

(** With capacity 0 a run of sends on an open core goes through. *)
Lemma sends_unbounded xs : forall c,
  _closed c = false -> cap c = 0%N ->
  mapM Core.send xs c =
    Ret (repeat true (length xs)) (Core.set_q (q c ++ xs) c)
        (repeat (notify_one _empty) (length xs)).
Proof.
  induction xs as [|x xs IH]; intros c Hc H0.
  - cbn. rewrite app_nil_r, set_q_same. reflexivity.
  - rewrite mapM_cons, send_room; [|exact Hc|rewrite H0; reflexivity].
    rewrite IH by (cbn; assumption).
    cbn. rewrite <- app_assoc. reflexivity.
Qed.

(** A bounded core takes a run of sends that fits. *)
Lemma sends_fit xs : forall c,
  _closed c = false ->
  (N.of_nat (length (q c) + length xs) <= cap c)%N ->
  mapM Core.send xs c =
    Ret (repeat true (length xs)) (Core.set_q (q c ++ xs) c)
        (repeat (notify_one _empty) (length xs)).
Proof.
  induction xs as [|x xs IH]; intros c Hc Hfit.
  - cbn. rewrite app_nil_r, set_q_same. reflexivity.
  - cbn [length] in Hfit.
    rewrite mapM_cons, send_room; [|exact Hc|].
    + rewrite IH; cbn; [|exact Hc|rewrite length_app; cbn; lia].
      rewrite <- app_assoc. reflexivity.
    + apply orb_true_iff. right. apply N.ltb_lt. unfold Core.size. lia.
Qed.

(** Receives, of either kind, take the items from the front in order. *)
Lemma recvs_front ks : forall xs rest c,
  _closed c = false -> q c = xs ++ rest -> length ks = length xs ->
  mapM recv_by ks c =
    Ret (Some <$> xs) (Core.set_q rest c)
        (repeat (notify_one _full) (length xs)).
Proof.
  induction ks as [|k ks IH]; intros [|x xs] rest c Hc Hq; cbn [length];
    try discriminate; intros Hlen.
  - cbn in *. rewrite <- Hq, set_q_same. reflexivity.
  - rewrite mapM_cons.
    assert (Hk : recv_by k c =
                 Ret (Some x) (Core.set_q (xs ++ rest) c) [notify_one _full]).
    { destruct k; unfold recv_by; run_m.
      - rewrite (recv_front c x (xs ++ rest)) by assumption. reflexivity.
      - rewrite (recv_immed_front c x (xs ++ rest)) by assumption.
        reflexivity. }
    rewrite Hk, (IH xs rest) by (cbn; auto with arith). reflexivity.
Qed.

End fifo_facts.

(** ** Calls through a [shared_ptr] *)

Section heap_facts.
Context {T : Type}.
Implicit Types (h : heap T) (p : loc) (cl : cell T).

Lemma cell_eta cl : mk_cell (obj cl) (use_count cl) = cl.
Proof. destruct cl; reflexivity. Qed.

Lemma deref_ret {A} (m : M (_channel T) A) h p cl a o w :
  h !! p = Some cl -> m (obj cl) = Ret a o w ->
  SharedPtr.deref p m h = Ret a (<[p := mk_cell o (use_count cl)]> h) w.
Proof. intros Hp Hm. unfold SharedPtr.deref. rewrite Hp, Hm. reflexivity. Qed.

Lemma deref_closed h p cl :
  h !! p = Some cl ->
  SharedPtr.deref p Core.closed h = Ret (_closed (obj cl)) h [].
Proof.
  intros Hp. rewrite (deref_ret _ h p cl _ _ _ Hp (closed_ret _)).
  rewrite cell_eta, insert_id by exact Hp. reflexivity.
Qed.

Lemma deref_flush h p cl :
  h !! p = Some cl ->
  SharedPtr.deref p Core.flush h =
    Ret tt (<[p := mk_cell (Core.set_q [] (obj cl)) (use_count cl)]> h)
        [notify_one _full].
Proof. intros Hp. apply (deref_ret _ h p cl); [exact Hp | apply flush_ret]. Qed.

Lemma deref_close_open h p cl :
  h !! p = Some cl -> _closed (obj cl) = false ->
  SharedPtr.deref p Core.close h =
    Ret tt (<[p := mk_cell (mk_channel (cap (obj cl)) [] true) (use_count cl)]> h)
        [notify_all _full; notify_all _empty].
Proof.
  intros Hp Hc. apply (deref_ret _ h p cl); [exact Hp | apply close_open, Hc].
Qed.

Lemma close_if_open h p cl :
  h !! p = Some cl ->
  (if negb (_closed (obj cl)) then SharedPtr.deref p Core.close else mret tt) h =
    Ret tt (<[p := mk_cell (closed_core (obj cl)) (use_count cl)]> h)
        (close_signals (obj cl)).
Proof.
  intros Hp. unfold closed_core, close_signals.
  destruct (_closed (obj cl)) eqn:Hc; cbn [negb].
  - rewrite cell_eta, insert_id by exact Hp. reflexivity.
  - apply (deref_close_open h p cl Hp Hc).
Qed.

End heap_facts.

(** ** The close protocol of the core *)

Section core_claims.
Context {T : Type}.
Implicit Types (c : _channel T) (t : T).

(** A call of [close] that returns has found the core open and leaves it
    closed and empty. *)
Lemma close_ret_inv c c1 w :
  Core.close c = Ret tt c1 w ->
  _closed c = false /\ c1 = mk_channel (cap c) [] true.
Proof.
  destruct (_closed c) eqn:Hc.
  - rewrite close_closed by assumption. discriminate.
  - rewrite close_open by assumption. intros [= <- _]. auto.
Qed.

(** C3. Double close is fatal: once a call of [close] has returned, the
    next call of [close] on that core writes the diagnostic and exits with
    status [CLOSE_CLOSED_ERR]; it neither returns nor waits.  The same holds
    whatever calls were made on the core in between. *)
Theorem close_twice_fatal c c1 w :
  Core.close c = Ret tt c1 w ->
  Core.close c1 = Exit "Attempt to close a closed channel" CLOSE_CLOSED_ERR /\
  (forall os c2, run os c1 = Some c2 ->
     Core.close c2 = Exit "Attempt to close a closed channel" CLOSE_CLOSED_ERR).
Proof.
  intros Hcl. apply close_ret_inv in Hcl as [_ ->]. split.
  - apply close_closed. reflexivity.
  - intros os c2 Hrun. apply close_closed.
    apply (run_closed os _ _ Hrun). reflexivity.
Qed.

(** C4. Closed means empty, for good: in every state a core reaches from
    its construction in which the closed flag is set, the buffer is empty,
    and after any further calls the flag is still set and the buffer still
    empty. *)
Theorem closed_core_stays_empty (n : N) os c :
  run os (Core.new n) = Some c ->
  _closed c = true ->
  q c = [] /\
  (forall os' c', run os' c = Some c' -> _closed c' = true /\ q c' = []).
Proof.
  intros Hrun Hc.
  assert (Hinv : closed_is_empty c).
  { apply (run_closed_is_empty os _ _ Hrun), new_closed_is_empty. }
  split; [apply Hinv, Hc|].
  intros os' c' Hrun'.
  assert (Hc' : _closed c' = true) by (apply (run_closed os' _ _ Hrun'), Hc).
  split; [exact Hc'|].
  apply (run_closed_is_empty os' _ _ Hrun' Hinv), Hc'.
Qed.

(** A receiver that went to sleep on an open, empty core and is woken by
    [close] exits with [RECV_CLOSED_ERR]. *)
Lemma recv_woken_by_close c c1 w :
  _closed c = false -> q c = [] ->
  Core.close c = Ret tt c1 w ->
  Core.recv c = Wait _empty /\
  In (notify_all _empty) w /\
  Core.recv_wake c1 = Exit "Attempt to receive on a closed channel" RECV_CLOSED_ERR.
Proof.
  intros Hc Hq Hcl. split; [apply recv_empty; assumption|].
  rewrite close_open in Hcl by assumption. injection Hcl as <- <-.
  split; [cbn; auto|]. apply recv_wake_closed. reflexivity.
Qed.

(** C8. Capacity invariant: a core constructed with capacity [n > 0] never
    holds more than [n] items, whatever calls are made on it; and a [send]
    that returns [true] found strictly fewer than [n] items and pushed one
    at the back. *)
Theorem capacity_invariant (n : N) os c :
  (0 < n)%N ->
  run os (Core.new n) = Some c ->
  cap c = n /\
  (Core.size c <= n)%N /\
  (forall t c' w, Core.send t c = Ret true c' w ->
     (Core.size c < n)%N /\ q c' = q c ++ [t]).
Proof.
  intros Hn Hrun.
  assert (Hcap : cap c = n) by apply (run_cap os _ _ Hrun).
  assert (Hinv : within_capacity c).
  { apply (run_within_capacity os _ _ Hrun), new_within_capacity. }
  split; [exact Hcap|]. split.
  - rewrite <- Hcap. apply Hinv. lia.
  - intros t c' w Hs.
    destruct (_closed c) eqn:Hc.
    { rewrite send_closed in Hs by assumption. discriminate. }
    destruct ((cap c =? 0)%N || (Core.size c <? cap c)%N) eqn:Hr.
    + rewrite send_room in Hs by assumption. injection Hs as <- _.
      split; [|reflexivity].
      apply orb_true_iff in Hr as [Hr|Hr].
      * apply N.eqb_eq in Hr. lia.
      * apply N.ltb_lt in Hr. lia.
    + rewrite send_full in Hs by assumption. discriminate.
Qed.

(** C9. Unbounded sends: on an open core of capacity 0, [send] returns
    [true] with the item pushed at the back, however many items the buffer
    holds; it does not wait.  So does every send of a run of sends. *)
Theorem unbounded_send_succeeds c t :
  cap c = 0%N ->
  _closed c = false ->
  Core.send t c = Ret true (Core.set_q (q c ++ [t]) c) [notify_one _empty] /\
  (forall xs,
     mapM Core.send xs c =
       Ret (repeat true (length xs)) (Core.set_q (q c ++ xs) c)
           (repeat (notify_one _empty) (length xs))).
Proof.
  intros H0 Hc. split.
  - apply send_room; [exact Hc|]. rewrite H0. reflexivity.
  - intros xs. apply sends_unbounded; assumption.
Qed.

(** C5. FIFO order: after [n] sends on an open, empty core that all
    returned [true], [n] receives, each by [recv] or by [recv_immed], return
    the items sent, in the order they were sent, and leave the buffer
    empty. *)
Theorem fifo_order c (xs : list T) (ks : list recv_kind) c1 w1 :
  _closed c = false ->
  q c = [] ->
  mapM Core.send xs c = Ret (repeat true (length xs)) c1 w1 ->
  length ks = length xs ->
  exists c2 w2,
    mapM recv_by ks c1 = Ret (Some <$> xs) c2 w2 /\ q c2 = [].
Proof.
  intros Hc Hq Hs Hlen.
  apply sends_open in Hs as [_ ->]; [|exact Hc].
  rewrite Hq. cbn [app].
  exists (Core.set_q [] (Core.set_q xs c)), (repeat (notify_one _full) (length xs)).
  split; [|reflexivity].
  apply recvs_front; [exact Hc | cbn; rewrite app_nil_r; reflexivity | exact Hlen].
Qed.

End core_claims.

(** ** The handles *)

Section handle_claims.
Context {T : Type}.
Implicit Types (h : heap T) (p : loc) (cl : cell T) (c : _channel T).

Lemma channel_new_ret (n : N) h :
  channel.new n h =
    Ret (channel.mk (fresh (dom h)))
        (<[fresh (dom h) := mk_cell (Core.new n) 1]> h) [].
Proof. reflexivity. Qed.

Lemma channel_recv_immed_empty h p cl :
  h !! p = Some cl -> q (obj cl) = [] ->
  channel.recv_immed (channel.mk p) h = Throw bad_optional_access.
Proof.
  intros Hp Hq. unfold channel.recv_immed. run_m. cbn [channel.ch].
  rewrite (deref_ret _ h p cl _ _ _ Hp (recv_immed_empty _ Hq)).
  reflexivity.
Qed.

Lemma channel_recv_immed_front h p cl x rest :
  h !! p = Some cl -> q (obj cl) = x :: rest ->
  channel.recv_immed (channel.mk p) h =
    Ret (Some x) (<[p := mk_cell (Core.set_q rest (obj cl)) (use_count cl)]> h)
        [notify_one _full].
Proof.
  intros Hp Hq. unfold channel.recv_immed. run_m. cbn [channel.ch].
  rewrite (deref_ret _ h p cl _ _ _ Hp (recv_immed_front _ _ _ Hq)).
  reflexivity.
Qed.

(** C1, on the code.  The core's [recv_immed] returns the empty optional on
    an empty buffer, but [channel::recv_immed] applies [.value()] to it: on
    a channel that was just constructed the call leaves with
    [std::bad_optional_access]. *)
Theorem channel_recv_immed_empty_throws (n : N) h :
  Core.recv_immed (Core.new (T:=T) n) = Ret None (Core.new n) [] /\
  (c ← channel.new n; channel.recv_immed c) h = Throw bad_optional_access.
Proof.
  split; [reflexivity|].
  change ((c ← channel.new n; channel.recv_immed c) h)
    with (M_bind channel.recv_immed (channel.new n) h).
  unfold M_bind. rewrite channel_new_ret.
  rewrite (channel_recv_immed_empty _ _ (mk_cell (Core.new n) 1));
    [reflexivity | apply lookup_insert_eq | reflexivity].
Qed.

(** Destruction of a [shared_ptr] that is not the last owner. *)
Lemma release_shared h p cl :
  h !! p = Some cl -> (1 < use_count cl)%nat ->
  SharedPtr.release p h =
    Ret tt (<[p := mk_cell (obj cl) (use_count cl - 1)]> h) [].
Proof.
  intros Hp Hn. unfold SharedPtr.release. run_m. rewrite Hp.
  destruct (use_count cl) as [|[|m]]; [lia | lia |].
  replace (S (S m) - 1)%nat with (S m) by lia. reflexivity.
Qed.

(** Destruction of the last owner: [~_channel()] runs and the core is
    freed. *)
Lemma release_last h p cl :
  h !! p = Some cl -> use_count cl = 1%nat ->
  exists w, SharedPtr.release p h = Ret tt (delete p h) w.
Proof.
  intros Hp Hn. unfold SharedPtr.release. run_m. rewrite Hp, Hn.
  unfold SharedPtr.deref. rewrite Hp.
  unfold Core.dtor. run_m. rewrite closed_ret.
  destruct (_closed (obj cl)) eqn:Hc; cbn [negb].
  - rewrite flush_ret. eexists. rewrite delete_insert_eq. reflexivity.
  - rewrite close_open by assumption. rewrite flush_ret.
    eexists. rewrite delete_insert_eq. reflexivity.
Qed.

(** The two destructors have the same body. *)
Lemma send_channel_dtor_eq p h :
  send_channel.dtor (send_channel.mk p) h = channel.dtor (channel.mk p) h.
Proof. reflexivity. Qed.

Lemma send_channel_close_eq p h :
  send_channel.close (send_channel.mk p) h = channel.close (channel.mk p) h.
Proof. reflexivity. Qed.

(** C2, as the code has it.  Destroying a handle whose core is still open
    closes the core also when other handles share it: the core stays
    alive with one owner fewer, closed and with its buffer discarded.  The
    close is skipped only when the core is closed already. *)
Theorem handle_dtor_closes_open_core h p cl :
  h !! p = Some cl ->
  (1 < use_count cl)%nat ->
  channel.dtor (channel.mk p) h =
    Ret tt (<[p := mk_cell (closed_core (obj cl)) (use_count cl - 1)]> h)
        (close_signals (obj cl)) /\
  send_channel.dtor (send_channel.mk p) h =
    Ret tt (<[p := mk_cell (closed_core (obj cl)) (use_count cl - 1)]> h)
        (close_signals (obj cl)).
Proof.
  intros Hp Hn. rewrite send_channel_dtor_eq.
  assert (channel.dtor (channel.mk p) h =
    Ret tt (<[p := mk_cell (closed_core (obj cl)) (use_count cl - 1)]> h)
        (close_signals (obj cl))) as ->; [|split; reflexivity].
  unfold channel.dtor, channel.closed. cbn [channel.ch].
  pose proof (close_if_open h p cl Hp) as Hclose.
  revert Hclose. run_m. rewrite (deref_closed h p cl Hp). intros ->.
  rewrite (release_shared _ p (mk_cell (closed_core (obj cl)) (use_count cl)));
    [|apply lookup_insert_eq|exact Hn].
  cbn [obj use_count]. rewrite insert_insert_eq, !app_nil_r.
  reflexivity.
Qed.

(** A run of sends through a handle is the run of sends on its core. *)
Lemma channel_sends (xs : list T) : forall h p cl bs o w,
  h !! p = Some cl ->
  mapM Core.send xs (obj cl) = Ret bs o w ->
  mapM (channel.send (channel.mk p)) xs h =
    Ret bs (<[p := mk_cell o (use_count cl)]> h) w.
Proof.
  induction xs as [|x xs IH]; intros h p cl bs o w Hp.
  - cbn. intros [= <- <- <-]. rewrite cell_eta, insert_id by exact Hp.
    reflexivity.
  - rewrite !mapM_cons.
    destruct (Core.send x (obj cl)) as [y s1 w1| | | |] eqn:Hs; try discriminate.
    destruct (mapM Core.send xs s1) as [ys s2 w2| | | |] eqn:Hm; try discriminate.
    intros [= <- <- <-].
    unfold channel.send at 1. cbn [channel.ch].
    rewrite (deref_ret _ h p cl _ _ _ Hp Hs).
    rewrite (IH _ p (mk_cell s1 (use_count cl)) ys s2 w2);
      [|apply lookup_insert_eq|exact Hm].
    cbn [use_count]. rewrite insert_insert_eq. reflexivity.
Qed.

(** Receives through a [channel] handle, of either kind, take the items
    from the front in order: on a non-empty buffer [.value()] has a
    value. *)
Lemma channel_recvs_front (ks : list recv_kind) : forall (xs rest : list T) h p cl,
  h !! p = Some cl ->
  _closed (obj cl) = false -> q (obj cl) = xs ++ rest ->
  length ks = length xs ->
  mapM (channel_recv_by (channel.mk p)) ks h =
    Ret (Some <$> xs)
        (<[p := mk_cell (Core.set_q rest (obj cl)) (use_count cl)]> h)
        (repeat (notify_one _full) (length xs)).
Proof.
  induction ks as [|k ks IH]; intros [|x xs] rest h p cl Hp Hc Hq;
    cbn [length]; try discriminate; intros Hlen.
  - cbn in *. rewrite <- Hq, set_q_same, cell_eta, insert_id by exact Hp.
    reflexivity.
  - rewrite mapM_cons.
    assert (Hk : channel_recv_by (channel.mk p) k h =
                 Ret (Some x)
                     (<[p := mk_cell (Core.set_q (xs ++ rest) (obj cl))
                                     (use_count cl)]> h)
                     [notify_one _full]).
    { destruct k; unfold channel_recv_by.
      - unfold channel.recv. run_m. cbn [channel.ch].
        rewrite (deref_ret _ h p cl _ _ _ Hp (recv_front _ _ _ Hc Hq)).
        reflexivity.
      - apply channel_recv_immed_front; assumption. }
    rewrite Hk.
    rewrite (IH xs rest _ p (mk_cell (Core.set_q (xs ++ rest) (obj cl))
                                     (use_count cl)));
      [|apply lookup_insert_eq|exact Hc|reflexivity|auto with arith].
    cbn [obj use_count]. rewrite insert_insert_eq. reflexivity.
Qed.

(** FIFO order through a handle: on a channel that was just constructed,
    unbounded or with room for the items, the sends all return [true] and
    as many receives return the items in the order they were sent. *)
Lemma channel_fifo_order (n : N) (xs : list T) (ks : list recv_kind) h :
  n = 0%N \/ (N.of_nat (length xs) <= n)%N ->
  length ks = length xs ->
  exists h' w,
    (c ← channel.new n;
     bs ← mapM (channel.send c) xs;
     ys ← mapM (channel_recv_by c) ks;
     mret (bs, ys)) h =
      Ret (repeat true (length xs), Some <$> xs) h' w.
Proof.
  intros Hn Hlen.
  assert (Hs : mapM Core.send xs (Core.new n) =
               Ret (repeat true (length xs)) (Core.set_q xs (Core.new n))
                   (repeat (notify_one _empty) (length xs))).
  { destruct Hn as [-> | Hn].
    - apply (sends_unbounded xs (Core.new 0)); reflexivity.
    - apply (sends_fit xs (Core.new n)); [reflexivity | exact Hn]. }
  set (p := fresh (dom h)).
  set (h1 := <[p := mk_cell (Core.new n) 1]> h).
  pose proof (channel_sends xs h1 p _ _ _ _ (lookup_insert_eq _ _ _) Hs) as Hs'.
  cbn [use_count] in Hs'.
  pose proof (channel_recvs_front ks xs []
                (<[p := mk_cell (Core.set_q xs (Core.new n)) 1]> h1) p
                (mk_cell (Core.set_q xs (Core.new n)) 1)
                (lookup_insert_eq _ _ _) eq_refl
                (eq_sym (app_nil_r xs)) Hlen) as Hr.
  do 2 eexists. revert Hs' Hr. run_m.
  unfold channel.new. run_m. unfold SharedPtr.make_shared.
  fold p. fold h1. intros -> ->. reflexivity.
Qed.

(** C6. Send after close is rejected, not fatal: on a closed core [send]
    returns [false] at once and leaves the core as it is, and so does a
    sender woken from its wait; through either handle the call returns
    [false] with the free store unchanged. *)
Theorem send_after_close_rejected c (t : T) :
  _closed c = true ->
  Core.send t c = Ret false c [] /\
  Core.send_wake t c = Ret false c [] /\
  (forall h p n, h !! p = Some (mk_cell c n) ->
     channel.send (channel.mk p) t h = Ret false h [] /\
     send_channel.send (send_channel.mk p) t h = Ret false h []).
Proof.
  intros Hc. split; [apply send_closed, Hc|].
  split; [apply send_wake_closed, Hc|].
  intros h p n Hp.
  assert (SharedPtr.deref p (Core.send t) h = Ret false h []) as Hd.
  { rewrite (deref_ret _ h p _ _ _ _ Hp (send_closed t c Hc)).
    cbn [use_count]. rewrite insert_id by exact Hp. reflexivity. }
  split; exact Hd.
Qed.

(** C7. Blocking receive on a closed core is fatal: [recv] called on a
    closed core, and [recv] resumed from its wait on a closed core, both
    write the diagnostic and exit with status [RECV_CLOSED_ERR], also when
    called through a [channel] handle; no item is returned; and that status
    differs from the one of a double close. *)
Theorem recv_closed_fatal c :
  _closed c = true ->
  Core.recv c = Exit "Attempt to receive on a closed channel" RECV_CLOSED_ERR /\
  Core.recv_wake c = Exit "Attempt to receive on a closed channel" RECV_CLOSED_ERR /\
  (forall h p n, h !! p = Some (mk_cell c n) ->
     channel.recv (channel.mk p) h =
       Exit "Attempt to receive on a closed channel" RECV_CLOSED_ERR) /\
  RECV_CLOSED_ERR <> CLOSE_CLOSED_ERR.
Proof.
  intros Hc. split; [|split; [|split]].
  - apply recv_closed, Hc.
  - apply recv_wake_closed, Hc.
  - intros h p n Hp. unfold channel.recv, SharedPtr.deref. cbn [channel.ch].
    rewrite Hp. cbn [obj]. rewrite recv_closed by exact Hc. reflexivity.
  - discriminate.
Qed.

(** C10. Close through a handle tolerates a closed core: [close()] of a
    [channel] or of a [send_channel] whose core is closed skips the core's
    close and only flushes; the call returns, and when the buffer is empty,
    as it is in a closed core, the free store is left as it was. *)
Theorem handle_close_closed_harmless h p cl :
  h !! p = Some cl ->
  _closed (obj cl) = true ->
  channel.close (channel.mk p) h =
    Ret tt (<[p := mk_cell (Core.set_q [] (obj cl)) (use_count cl)]> h)
        [notify_one _full] /\
  send_channel.close (send_channel.mk p) h =
    Ret tt (<[p := mk_cell (Core.set_q [] (obj cl)) (use_count cl)]> h)
        [notify_one _full] /\
  (q (obj cl) = [] ->
   <[p := mk_cell (Core.set_q [] (obj cl)) (use_count cl)]> h = h).
Proof.
  intros Hp Hc. rewrite send_channel_close_eq.
  assert (channel.close (channel.mk p) h =
    Ret tt (<[p := mk_cell (Core.set_q [] (obj cl)) (use_count cl)]> h)
        [notify_one _full]) as ->.
  { unfold channel.close, channel.closed. cbn [channel.ch]. run_m.
    rewrite (deref_closed h p cl Hp), Hc. cbn [negb].
    rewrite (deref_flush h p cl Hp). reflexivity. }
  split; [reflexivity|]. split; [reflexivity|].
  intros Hq. rewrite <- Hq, set_q_same, cell_eta. apply insert_id, Hp.
Qed.

End handle_claims.

(** ** The theorems at concrete channels *)

(** C2, as stated, fails.  [channel<int> c(2); send_channel<int> s(c);
    c.send(7);] leaves one open core with two owners.  Destroying [s]
    alone closes that core: [c], still alive, reports [closed()], the item
    is gone and the next send through [c] is rejected.  Destroying [c]
    instead does the same to [s]. *)
Lemma dtor_closes_shared_core :
  (c ← channel.new 2; s ← send_channel.of_channel c;
   channel.send c 7;; mret (c, s)) (∅ : heap Z) =
    Ret (channel.mk 1, send_channel.mk 1) shared_heap [notify_one _empty] /\
  (send_channel.dtor (send_channel.mk 1);;
   channel.closed (channel.mk 1)) shared_heap =
    Ret true {[ 1%positive := mk_cell (mk_channel 2 [] true) 1 ]}
        [notify_all _full; notify_all _empty] /\
  (send_channel.dtor (send_channel.mk 1);;
   channel.send (channel.mk 1) 8) shared_heap =
    Ret false {[ 1%positive := mk_cell (mk_channel 2 [] true) 1 ]}
        [notify_all _full; notify_all _empty] /\
  (channel.dtor (channel.mk 1);;
   send_channel.closed (send_channel.mk 1)) shared_heap =
    Ret true {[ 1%positive := mk_cell (mk_channel 2 [] true) 1 ]}
        [notify_all _full; notify_all _empty].
Proof. repeat split; vm_compute; reflexivity. Qed.

Lemma handle_dtor_closes_open_core_witness :
  shared_heap !! 1%positive = Some (mk_cell (mk_channel 2 [7] false) 2) /\
  (1 < 2)%nat /\
  channel.dtor (channel.mk 1) shared_heap =
    Ret tt (<[1%positive := mk_cell (mk_channel 2 [] true) 1]> shared_heap)
        [notify_all _full; notify_all _empty].
Proof.
  split; [reflexivity|]. split; [apply le_n|].
  exact (proj1 (handle_dtor_closes_open_core shared_heap 1%positive
                  (mk_cell (mk_channel 2 [7] false) 2) eq_refl (le_n 2))).
Defined.

Lemma close_twice_fatal_witness :
  Core.close (Core.new (T:=Z) 2) =
    Ret tt (mk_channel 2 [] true) [notify_all _full; notify_all _empty] /\
  Core.close (mk_channel (T:=Z) 2 [] true) =
    Exit "Attempt to close a closed channel" CLOSE_CLOSED_ERR.
Proof.
  split; [reflexivity|].
  exact (proj1 (close_twice_fatal (Core.new 2) (mk_channel 2 [] true) _ eq_refl)).
Defined.

Lemma closed_core_stays_empty_witness :
  run [call_send 1; call_close] (Core.new (T:=Z) 2) =
    Some (mk_channel 2 [] true) /\
  _closed (mk_channel (T:=Z) 2 [] true) = true /\
  q (mk_channel (T:=Z) 2 [] true) = [] /\
  (forall os' c', run os' (mk_channel (T:=Z) 2 [] true) = Some c' ->
     _closed c' = true /\ q c' = []).
Proof.
  split; [reflexivity|]. split; [reflexivity|].
  exact (closed_core_stays_empty 2 [call_send 1; call_close]
           (mk_channel 2 [] true) eq_refl eq_refl).
Defined.

Lemma fifo_order_witness :
  mapM Core.send [10; 20; 30] (Core.new (T:=Z) 3) =
    Ret [true; true; true] (mk_channel 3 [10; 20; 30] false)
        [notify_one _empty; notify_one _empty; notify_one _empty] /\
  exists c2 w2,
    mapM recv_by [blocking; immediate; blocking]
         (mk_channel (T:=Z) 3 [10; 20; 30] false) =
      Ret [Some 10; Some 20; Some 30] c2 w2 /\ q c2 = [].
Proof.
  split; [reflexivity|].
  exact (fifo_order (Core.new 3) [10; 20; 30] [blocking; immediate; blocking]
           (mk_channel 3 [10; 20; 30] false) _ eq_refl eq_refl eq_refl eq_refl).
Defined.

Lemma send_after_close_rejected_witness :
  _closed (mk_channel (T:=Z) 2 [] true) = true /\
  Core.send 5 (mk_channel (T:=Z) 2 [] true) =
    Ret false (mk_channel 2 [] true) [].
Proof.
  split; [reflexivity|].
  exact (proj1 (send_after_close_rejected (mk_channel 2 [] true) 5 eq_refl)).
Defined.

Lemma recv_closed_fatal_witness :
  _closed (mk_channel (T:=Z) 2 [] true) = true /\
  Core.recv (mk_channel (T:=Z) 2 [] true) =
    Exit "Attempt to receive on a closed channel" 3.
Proof.
  split; [reflexivity|].
  exact (proj1 (recv_closed_fatal (mk_channel 2 [] true) eq_refl)).
Defined.

Lemma capacity_invariant_witness :
  (0 < 2)%N /\
  run [call_send 1; call_send 2; call_send 3; call_recv; call_send_wake 3]
      (Core.new (T:=Z) 2) = Some (mk_channel 2 [2; 3] false) /\
  N.le (Core.size (mk_channel (T:=Z) 2 [2; 3] false)) 2.
Proof.
  split; [reflexivity|]. split; [reflexivity|].
  exact (proj1 (proj2 (capacity_invariant 2
           [call_send 1; call_send 2; call_send 3; call_recv; call_send_wake 3]
           (mk_channel 2 [2; 3] false) eq_refl eq_refl))).
Defined.

Lemma unbounded_send_succeeds_witness :
  cap (mk_channel (T:=Z) 0 [1; 2; 3] false) = 0%N /\
  Core.send 4 (mk_channel (T:=Z) 0 [1; 2; 3] false) =
    Ret true (mk_channel 0 [1; 2; 3; 4] false) [notify_one _empty].
Proof.
  split; [reflexivity|].
  exact (proj1 (unbounded_send_succeeds (mk_channel 0 [1; 2; 3] false) 4
                  eq_refl eq_refl)).
Defined.

Lemma handle_close_closed_harmless_witness :
  ({[ 1%positive := mk_cell (mk_channel 2 [] true) 1 ]} : heap Z) !! 1%positive =
    Some (mk_cell (mk_channel 2 [] true) 1) /\
  channel.close (channel.mk 1)
    ({[ 1%positive := mk_cell (mk_channel 2 [] true) 1 ]} : heap Z) =
    Ret tt (<[1%positive := mk_cell (mk_channel 2 [] true) 1]>
              {[ 1%positive := mk_cell (mk_channel 2 [] true) 1 ]})
        [notify_one _full].
Proof.
  split; [reflexivity|].
  exact (proj1 (handle_close_closed_harmless
                  {[ 1%positive := mk_cell (mk_channel 2 [] true) 1 ]}
                  1%positive (mk_cell (mk_channel (T:=Z) 2 [] true) 1)
                  eq_refl eq_refl)).
Defined.

(** ** What a call on the core can and cannot do *)

#[local] Set Warnings "-clear-no-such-hyp".

Section core_outcomes.
Context {T : Type}.
Implicit Types (c : _channel T) (t : T).

Lemma send_cases t c :
  Core.send t c =
    if _closed c then Ret false c []
    else if (cap c =? 0)%N || (Core.size c <? cap c)%N
         then Ret true (Core.set_q (q c ++ [t]) c) [notify_one _empty]
         else Wait _full.
Proof.
  destruct (_closed c) eqn:Hc; [apply send_closed, Hc|].
  destruct ((cap c =? 0)%N || (Core.size c <? cap c)%N) eqn:Hr.
  - apply send_room; assumption.
  - apply send_full; assumption.
Qed.

Lemma recv_cases c :
  Core.recv c =
    if _closed c
    then Exit "Attempt to receive on a closed channel" RECV_CLOSED_ERR
    else match q c with
         | [] => Wait _empty
         | t :: rest => Ret t (Core.set_q rest c) [notify_one _full]
         end.
Proof.
  destruct (_closed c) eqn:Hc; [apply recv_closed, Hc|].
  destruct (q c) as [|t rest] eqn:Hq.
  - apply recv_empty; assumption.
  - apply recv_front; assumption.
Qed.

Lemma full_iff c :
  ((cap c =? 0)%N || (Core.size c <? cap c)%N) = false <->
  cap c <> 0%N /\ (cap c <= Core.size c)%N.
Proof.
  rewrite orb_false_iff, N.eqb_neq, N.ltb_ge. reflexivity.
Qed.

(** X1. [send] never ends the process: whatever the state of the core, it does
    not exit, throw or run into undefined behaviour (the exit status
    [SEND_CLOSED_ERR] is not used).  It waits, on [_full], exactly when the
    core is open, bounded and full; and when it returns, it returns [true]
    exactly when the core was open. *)
Theorem send_never_fatal c t :
  (forall err code, Core.send t c <> Exit err code) /\
  (forall e, Core.send t c <> Throw e) /\
  Core.send t c <> Undef /\
  (forall cv, Core.send t c = Wait cv <->
     cv = _full /\ _closed c = false /\ cap c <> 0%N /\
     (cap c <= Core.size c)%N) /\
  (forall b c' w, Core.send t c = Ret b c' w -> b = negb (_closed c)).
Proof.
  rewrite send_cases.
  destruct (_closed c) eqn:Hc; [naive_solver|].
  destruct ((cap c =? 0)%N || (Core.size c <? cap c)%N) eqn:Hr.
  - assert (~ (cap c <> 0%N /\ (cap c <= Core.size c)%N)).
    { rewrite <- full_iff. congruence. }
    naive_solver.
  - apply full_iff in Hr. naive_solver.
Qed.

(** X2. [recv] never takes [front()] of an empty queue and never throws.  It
    exits, with [RECV_CLOSED_ERR], exactly when the core is closed; it
    waits, on [_empty], exactly when the core is open and empty; and it
    returns exactly when the core is open and holds an item, which it pops
    from the front. *)
Theorem recv_outcome c :
  Core.recv c <> Undef /\
  (forall e, Core.recv c <> Throw e) /\
  (forall err code, Core.recv c = Exit err code <->
     _closed c = true /\ code = RECV_CLOSED_ERR /\
     err = "Attempt to receive on a closed channel") /\
  (forall cv, Core.recv c = Wait cv <->
     cv = _empty /\ _closed c = false /\ q c = []) /\
  (forall t c' w, Core.recv c = Ret t c' w <->
     exists rest, _closed c = false /\ q c = t :: rest /\
       c' = Core.set_q rest c /\ w = [notify_one _full]).
Proof.
  rewrite recv_cases.
  destruct (_closed c) eqn:Hc; [naive_solver|].
  destruct (q c) as [|x rest] eqn:Hq; naive_solver.
Qed.

(** X3. A sender that found an open core full is let in by one receive: the
    receive, of either kind, pops the front item and notifies [_full], and
    the sender resumed from its wait pushes its item behind the rest and
    returns [true]. *)
Theorem blocked_sender_released_by_recv c t x rest (k : recv_kind) :
  _closed c = false ->
  q c = x :: rest ->
  cap c = Core.size c ->
  Core.send t c = Wait _full /\
  recv_by k c = Ret (Some x) (Core.set_q rest c) [notify_one _full] /\
  Core.send_wake t (Core.set_q rest c) =
    Ret true (Core.set_q (rest ++ [t]) c) [notify_one _empty].
Proof.
  intros Hc Hq Hcap.
  assert (Hsz : Core.size c = N.of_nat (S (length rest))).
  { unfold Core.size. rewrite Hq. reflexivity. }
  split; [|split].
  - apply send_full; [exact Hc|]. apply full_iff. lia.
  - destruct k; unfold recv_by; run_m.
    + rewrite (recv_front c x rest) by assumption. reflexivity.
    + rewrite (recv_immed_front c x rest) by assumption. reflexivity.
  - rewrite send_wake_room; [reflexivity | exact Hc |].
    apply orb_true_iff. right. apply N.ltb_lt.
    unfold Core.size. cbn. lia.
Qed.

(** X4. A sender that found an open core full and is woken by [close] gives
    up: [close] notifies all waiters on [_full], and the sender resumed
    from its wait returns [false] and pushes nothing. *)
Theorem blocked_sender_woken_by_close c t :
  _closed c = false ->
  cap c <> 0%N ->
  (cap c <= Core.size c)%N ->
  Core.send t c = Wait _full /\
  Core.close c =
    Ret tt (mk_channel (cap c) [] true) [notify_all _full; notify_all _empty] /\
  Core.send_wake t (mk_channel (cap c) [] true) =
    Ret false (mk_channel (cap c) [] true) [].
Proof.
  intros Hc H0 Hle. split; [|split].
  - apply send_full; [exact Hc|]. apply full_iff. auto.
  - apply close_open, Hc.
  - apply send_wake_closed. reflexivity.
Qed.

(** X5. [flush] discards the buffer without closing: on an open core, whatever
    its capacity and however full it is, a [send] right after a [flush]
    goes through at once and its item is alone in the buffer. *)
Theorem flush_then_send c t :
  _closed c = false ->
  (Core.flush;; Core.send t) c =
    Ret true (Core.set_q [t] c) [notify_one _full; notify_one _empty].
Proof.
  intros Hc.
  change ((Core.flush;; Core.send t) c)
    with (M_bind (fun _ => Core.send t) Core.flush c).
  unfold M_bind. rewrite flush_ret, send_cases.
  destruct c as [n l b]. cbn in Hc. subst b.
  destruct n; reflexivity.
Qed.

(** X6. [~_channel()] is safe in every state: it closes a core that is open,
    skips the close on one that is closed, and in both cases returns with
    the core closed and empty; it never exits on a double close. *)
Theorem core_dtor_safe c :
  exists w, Core.dtor c = Ret tt (mk_channel (cap c) [] true) w.
Proof.
  unfold Core.dtor. run_m. rewrite closed_ret.
  destruct c as [n l [|]]; cbn [_closed negb].
  - rewrite flush_ret. eexists. reflexivity.
  - rewrite close_open by reflexivity. rewrite flush_ret.
    eexists. reflexivity.
Qed.

(** X7. [x >> ch; y << ch;] on an open, empty core gives [y] the value of [x]
    and leaves the core as it was, whatever the capacity. *)
Theorem shr_shl_round_trip c t :
  _closed c = false ->
  q c = [] ->
  (core_shr t;; core_shl) c = Ret t c [notify_one _empty; notify_one _full].
Proof.
  intros Hc Hq. unfold core_shr, core_shl. run_m.
  rewrite send_cases, Hc. unfold Core.size. rewrite Hq. cbn [length app].
  assert (Hr : ((cap c =? 0)%N || (N.of_nat 0 <? cap c)%N) = true).
  { destruct (cap c); reflexivity. }
  rewrite Hr.
  rewrite (recv_front (Core.set_q [t] c) t []) by (cbn; auto).
  destruct c as [n l b]. cbn in Hq. subst l. reflexivity.
Qed.

End core_outcomes.

(** ** Nothing is made up, nothing is reordered *)

Section conservation.
Context {T : Type}.
Implicit Types (c : _channel T) (o : call T) (os : list (call T)).

Lemma recv_immed_cases c :
  Core.recv_immed c =
    match q c with
    | [] => Ret None c []
    | t :: rest => Ret (Some t) (Core.set_q rest c) [notify_one _full]
    end.
Proof.
  destruct (q c) as [|t rest] eqn:Hq.
  - apply recv_immed_empty, Hq.
  - apply recv_immed_front, Hq.
Qed.

Lemma close_cases c :
  Core.close c =
    if _closed c
    then Exit "Attempt to close a closed channel" CLOSE_CLOSED_ERR
    else Ret tt (mk_channel (cap c) [] true) [notify_all _full; notify_all _empty].
Proof.
  destruct (_closed c) eqn:Hc; [apply close_closed | apply close_open]; exact Hc.
Qed.

(** One call: what it hands out plus what it leaves is what it found plus
    what it was given; [close] and [flush] only drop buffered items. *)
Lemma sublist_same (l : list T) : l `sublist_of` l.
Proof. induction l as [|x l IH]; constructor; exact IH. Qed.

Lemma exec_balance o c v c' w :
  exec o c = Ret v c' w ->
  (discards o = false -> got v ++ q c' = q c ++ sent_by o v) /\
  (got v ++ q c') `sublist_of` (q c ++ sent_by o v).
Proof.
  destruct o as [t|t| | | | | |]; unfold exec; run_m;
    rewrite ?send_wake_eq, ?recv_wake_eq, ?send_cases, ?recv_cases,
      ?recv_immed_cases, ?close_cases, ?flush_ret, ?closed_ret.
  - destruct (_closed c); [|destruct (_ || _)]; intros [= <- <- <-];
      cbn; rewrite ?app_nil_r;
      (split; [intros _; reflexivity | apply sublist_same]).
  - destruct (_closed c); [|destruct (_ || _)]; intros [= <- <- <-];
      cbn; rewrite ?app_nil_r;
      (split; [intros _; reflexivity | apply sublist_same]).
  - destruct (_closed c); [discriminate|].
    destruct (q c) as [|x rest]; intros [= <- <- <-].
    cbn; rewrite ?app_nil_r.
    split; [intros _; reflexivity | apply sublist_same].
  - destruct (_closed c); [discriminate|].
    destruct (q c) as [|x rest]; intros [= <- <- <-].
    cbn; rewrite ?app_nil_r.
    split; [intros _; reflexivity | apply sublist_same].
  - destruct (q c) as [|x rest] eqn:Hq; intros [= <- <- <-];
      cbn; rewrite ?Hq, ?app_nil_r;
      (split; [intros _; reflexivity | apply sublist_same]).
  - destruct (_closed c); [discriminate|]. intros [= <- <- <-].
    cbn. split; [discriminate | apply sublist_nil_l].
  - intros [= <- <- <-]. cbn. split; [discriminate | apply sublist_nil_l].
  - intros [= <- <- <-]. cbn. rewrite app_nil_r.
    split; [intros _; reflexivity | apply sublist_same].
Qed.

(** [tally] ends in the state [run] ends in. *)
Lemma tally_run os : forall c s r s' r' c',
  tally os c s r = Some (s', r', c') -> run os c = Some c'.
Proof.
  induction os as [|o os IH]; cbn; intros c s r s' r' c'.
  - intros [= _ _ <-]. reflexivity.
  - unfold next. destruct (exec o c) as [v c1 w| | | |]; try discriminate;
      apply IH.
Qed.

Lemma tally_exact os : forall c s r s' r' c' (q0 : list T),
  forallb (fun o => negb (discards o)) os = true ->
  tally os c s r = Some (s', r', c') ->
  r ++ q c = q0 ++ s ->
  r' ++ q c' = q0 ++ s'.
Proof.
  induction os as [|o os IH]; cbn; intros c s r s' r' c' q0 Hno.
  - intros [= <- <- <-]. auto.
  - apply andb_true_iff in Hno as [Ho Hno]. apply negb_true_iff in Ho.
    destruct (exec o c) as [v c1 w| | | |] eqn:He; try discriminate.
    + intros Ht Hinv. apply (IH _ _ _ _ _ _ q0 Hno Ht).
      apply exec_balance in He as [He _].
      rewrite <- app_assoc, (He Ho), !app_assoc, Hinv. reflexivity.
    + intros Ht Hinv. apply (IH _ _ _ _ _ _ q0 Hno Ht Hinv).
Qed.

Lemma tally_sublist os : forall c s r s' r' c' (q0 : list T),
  tally os c s r = Some (s', r', c') ->
  (r ++ q c) `sublist_of` (q0 ++ s) ->
  (r' ++ q c') `sublist_of` (q0 ++ s').
Proof.
  induction os as [|o os IH]; cbn; intros c s r s' r' c' q0.
  - intros [= <- <- <-]. auto.
  - destruct (exec o c) as [v c1 w| | | |] eqn:He; try discriminate.
    + intros Ht Hinv. apply (IH _ _ _ _ _ _ q0 Ht).
      apply exec_balance in He as [_ He].
      rewrite <- app_assoc. etransitivity.
      * apply sublist_app; [apply sublist_same | exact He].
      * rewrite !app_assoc. apply sublist_app; [exact Hinv | apply sublist_same].
    + intros Ht Hinv. apply (IH _ _ _ _ _ _ q0 Ht Hinv).
Qed.

(** X8. Conservation of items.  Over any sequence of sends and receives on
    one core, in any interleaving and with callers that wait in between,
    as long as nobody closes or flushes: the items received, in the order
    received, followed by the items still buffered, are the items the core
    started with followed by the items sent, in the order sent. *)
Theorem items_conserved os c sent rcvd c' :
  forallb (fun o => negb (discards o)) os = true ->
  tally os c [] [] = Some (sent, rcvd, c') ->
  rcvd ++ q c' = q c ++ sent.
Proof.
  intros Hno Ht.
  apply (tally_exact os c [] [] sent rcvd c' (q c) Hno Ht).
  cbn. rewrite app_nil_r. reflexivity.
Qed.

(** X9. Whatever calls are made on a core after its construction, [close] and
    [flush] included, the items received followed by the items buffered
    are a subsequence of the items sent: an item comes out at most once for
    each time it went in, and never ahead of an item sent before it. *)
Theorem received_in_send_order (n : N) os sent rcvd c :
  tally os (Core.new n) [] [] = Some (sent, rcvd, c) ->
  (rcvd ++ q c) `sublist_of` sent /\ rcvd `sublist_of` sent.
Proof.
  intros Ht.
  assert (H : (rcvd ++ q c) `sublist_of` ([] ++ sent)).
  { apply (tally_sublist os (Core.new n) [] [] sent rcvd c [] Ht).
    cbn. constructor. }
  cbn in H. split; [exact H|].
  etransitivity; [|exact H]. apply sublist_inserts_r, sublist_same.
Qed.

End conservation.

(** ** Closing and destroying through handles *)

Section handle_lifecycle.
Context {T : Type}.
Implicit Types (h : heap T) (p : loc) (cl : cell T) (c : _channel T).

Lemma bind_ret {S A B} (m : M S A) (k : A -> M S B) s a s1 w1 :
  m s = Ret a s1 w1 ->
  M_bind k m s =
    match k a s1 with
    | Ret b s2 w2 => Ret b s2 (w1 ++ w2)
    | Exit err code => Exit err code
    | Wait cv => Wait cv
    | Throw e => Throw e
    | Undef => Undef
    end.
Proof. intros Hm. unfold M_bind. rewrite Hm. reflexivity. Qed.

Lemma bind_ret_inv {S A B} (m : M S A) (k : A -> M S B) s b s2 w :
  M_bind k m s = Ret b s2 w ->
  exists a s1 w1 w2,
    m s = Ret a s1 w1 /\ k a s1 = Ret b s2 w2 /\ w = w1 ++ w2.
Proof.
  unfold M_bind. destruct (m s) as [a s1 w1| | | |]; try discriminate.
  destruct (k a s1) as [b' s2' w2| | | |] eqn:Hk; try discriminate.
  intros [= <- <- <-]. exists a, s1, w1, w2. auto.
Qed.

(** Destroying a handle that is not the last owner. *)
Lemma dtor_shared h p cl :
  h !! p = Some cl ->
  (1 < use_count cl)%nat ->
  channel.dtor (channel.mk p) h =
    Ret tt (<[p := mk_cell (closed_core (obj cl)) (use_count cl - 1)]> h)
        (close_signals (obj cl)).
Proof.
  intros Hp Hn.
  unfold channel.dtor, channel.closed. cbn [channel.ch].
  pose proof (close_if_open h p cl Hp) as Hclose.
  revert Hclose. run_m. rewrite (deref_closed h p cl Hp). intros ->.
  rewrite (release_shared _ p (mk_cell (closed_core (obj cl)) (use_count cl)));
    [|apply lookup_insert_eq|exact Hn].
  cbn [obj use_count]. rewrite insert_insert_eq, !app_nil_r.
  reflexivity.
Qed.

(** X10. Destroying the last handle of a core never exits, whether the core is
    open or closed: the handle's destructor closes it if need be,
    [~_channel()] finds it closed and only flushes, and the core is freed. *)
Theorem last_handle_dtor_frees h p cl :
  h !! p = Some cl ->
  use_count cl = 1%nat ->
  channel.dtor (channel.mk p) h =
    Ret tt (delete p h) (close_signals (obj cl) ++ [notify_one _full]) /\
  send_channel.dtor (send_channel.mk p) h =
    Ret tt (delete p h) (close_signals (obj cl) ++ [notify_one _full]).
Proof.
  intros Hp Hn. rewrite send_channel_dtor_eq.
  assert (channel.dtor (channel.mk p) h =
    Ret tt (delete p h) (close_signals (obj cl) ++ [notify_one _full])) as ->;
    [|split; reflexivity].
  unfold channel.dtor, channel.closed. cbn [channel.ch].
  pose proof (close_if_open h p cl Hp) as Hclose.
  revert Hclose. run_m. rewrite (deref_closed h p cl Hp). intros ->.
  set (o := closed_core (obj cl)).
  assert (Ho : _closed o = true).
  { unfold o, closed_core. destruct (_closed (obj cl)) eqn:Hc; auto. }
  unfold SharedPtr.release. run_m. rewrite lookup_insert_eq.
  cbn [use_count]. rewrite Hn.
  unfold SharedPtr.deref. rewrite lookup_insert_eq. cbn [obj use_count].
  unfold Core.dtor. run_m. rewrite closed_ret, Ho. cbn [negb].
  rewrite flush_ret. cbn [use_count].
  rewrite ?insert_insert_eq, ?delete_insert_eq.
  cbn. rewrite ?app_nil_r. reflexivity.
Qed.

(** [close()] through a handle, on any live core. *)
Lemma channel_close_ret h p cl :
  h !! p = Some cl ->
  channel.close (channel.mk p) h =
    Ret tt (<[p := mk_cell (mk_channel (cap (obj cl)) [] true) (use_count cl)]> h)
        (close_signals (obj cl) ++ [notify_one _full]).
Proof.
  intros Hp. unfold channel.close, channel.closed. cbn [channel.ch].
  pose proof (close_if_open h p cl Hp) as Hclose.
  revert Hclose. run_m. rewrite (deref_closed h p cl Hp). intros ->.
  rewrite (deref_flush _ p (mk_cell (closed_core (obj cl)) (use_count cl)))
    by apply lookup_insert_eq.
  cbn [obj use_count]. rewrite insert_insert_eq, ?app_nil_r.
  unfold closed_core. destruct (obj cl) as [n l [|]]; reflexivity.
Qed.


(** X12. After [close()] through a handle, whatever the core held: the handle
    reports [closed()], [send] is rejected, [recv] exits with
    [RECV_CLOSED_ERR], and [recv_immed] through the handle throws on the
    emptied buffer. *)
Theorem after_handle_close h p cl (x : T) :
  h !! p = Some cl ->
  (exists h1 w,
     (channel.close (channel.mk p);; channel.closed (channel.mk p)) h =
       Ret true h1 w) /\
  (exists h1 w,
     (channel.close (channel.mk p);; channel.send (channel.mk p) x) h =
       Ret false h1 w) /\
  (channel.close (channel.mk p);; channel.recv (channel.mk p)) h =
    Exit "Attempt to receive on a closed channel" RECV_CLOSED_ERR /\
  (channel.close (channel.mk p);; channel.recv_immed (channel.mk p)) h =
    Throw bad_optional_access.
Proof.
  intros Hp.
  pose proof (channel_close_ret h p cl Hp) as Hclose.
  set (cl1 := mk_cell (mk_channel (T:=T) (cap (obj cl)) [] true) (use_count cl)) in *.
  assert (Hp1 : <[p := cl1]> h !! p = Some cl1) by apply lookup_insert_eq.
  unfold mbind, M_mbind.
  rewrite !(bind_ret _ _ _ _ _ _ Hclose).
  split; [|split; [|split]].
  - unfold channel.closed. cbn [channel.ch].
    rewrite (deref_closed _ p cl1 Hp1). do 2 eexists. reflexivity.
  - unfold channel.send. cbn [channel.ch].
    rewrite (deref_ret _ _ p cl1 _ _ _ Hp1 (send_closed x (obj cl1) eq_refl)).
    do 2 eexists. reflexivity.
  - unfold channel.recv, SharedPtr.deref. cbn [channel.ch].
    rewrite Hp1. reflexivity.
  - rewrite (channel_recv_immed_empty _ p cl1 Hp1 eq_refl). reflexivity.
Qed.

(** X13. A [send_channel] made from a [channel] is a second owner of the same
    core, not a new queue: an item sent through it on the open, empty core
    is the item [recv] returns through the [channel]. *)
Theorem narrowed_handle_shares_core h p cl (x : T) :
  h !! p = Some cl ->
  _closed (obj cl) = false ->
  q (obj cl) = [] ->
  (s ← send_channel.of_channel (channel.mk p);
   send_channel.send s x;;
   channel.recv (channel.mk p)) h =
    Ret x (<[p := mk_cell (obj cl) (S (use_count cl))]> h)
        [notify_one _empty; notify_one _full].
Proof.
  intros Hp Hc Hq.
  assert (Hcopy : send_channel.of_channel (T:=T) (channel.mk p) h =
            Ret (send_channel.mk p)
                (<[p := mk_cell (obj cl) (S (use_count cl))]> h) []).
  { unfold send_channel.of_channel, SharedPtr.copy. run_m. cbn [channel.ch].
    rewrite Hp. reflexivity. }
  unfold mbind, M_mbind. rewrite (bind_ret _ _ _ _ _ _ Hcopy).
  assert (Hs : Core.send x (obj cl) =
               Ret true (Core.set_q [x] (obj cl)) [notify_one _empty]).
  { rewrite send_cases, Hc. unfold Core.size. rewrite Hq.
    destruct (cap (obj cl)); reflexivity. }
  assert (Hsend : send_channel.send (send_channel.mk p) x
                    (<[p := mk_cell (obj cl) (S (use_count cl))]> h) =
            Ret true (<[p := mk_cell (Core.set_q [x] (obj cl))
                                     (S (use_count cl))]> h)
                [notify_one _empty]).
  { unfold send_channel.send. cbn [send_channel.ch].
    rewrite (deref_ret _ _ p (mk_cell (obj cl) (S (use_count cl))) _ _ _
               (lookup_insert_eq _ _ _) Hs).
    cbn [use_count]. rewrite insert_insert_eq. reflexivity. }
  rewrite (bind_ret _ _ _ _ _ _ Hsend).
  unfold channel.recv. cbn [channel.ch].
  rewrite (deref_ret _ _ p (mk_cell (Core.set_q [x] (obj cl)) (S (use_count cl)))
             x (obj cl) [notify_one _full] (lookup_insert_eq _ _ _)).
  - cbn [use_count]. rewrite insert_insert_eq. reflexivity.
  - cbn [obj]. rewrite (recv_front _ x []) by (cbn; auto).
    destruct (obj cl) as [n l b]. cbn in Hq. subst l. reflexivity.
Qed.

(** X14. On a closed core, making a [send_channel] from a [channel] and
    destroying it again leaves the free store exactly as it was. *)
Theorem narrow_then_dtor_restores h p cl :
  h !! p = Some cl ->
  _closed (obj cl) = true ->
  (1 <= use_count cl)%nat ->
  (s ← send_channel.of_channel (channel.mk p); send_channel.dtor s) h =
    Ret tt h [].
Proof.
  intros Hp Hc Hn.
  assert (Hcopy : send_channel.of_channel (T:=T) (channel.mk p) h =
            Ret (send_channel.mk p)
                (<[p := mk_cell (obj cl) (S (use_count cl))]> h) []).
  { unfold send_channel.of_channel, SharedPtr.copy. run_m. cbn [channel.ch].
    rewrite Hp. reflexivity. }
  unfold mbind, M_mbind. rewrite (bind_ret _ _ _ _ _ _ Hcopy).
  rewrite send_channel_dtor_eq.
  rewrite (dtor_shared (<[p := mk_cell (obj cl) (S (use_count cl))]> h) p
             (mk_cell (obj cl) (S (use_count cl))));
    [|apply lookup_insert_eq | cbn; lia].
  cbn [obj use_count]. unfold closed_core, close_signals. rewrite Hc.
  rewrite insert_insert_eq. replace (S (use_count cl) - 1)%nat with (use_count cl) by lia.
  rewrite cell_eta, insert_id by exact Hp. reflexivity.
Qed.

(** A constructed handle never aliases a core in use: the address it
    gets was not live, and the core there is new, open and empty with one
    owner. *)
Lemma new_handle_is_fresh (n : N) h :
  h !! fresh (dom h) = None /\
  channel.new n h =
    Ret (channel.mk (fresh (dom h)))
        (<[fresh (dom h) := mk_cell (Core.new n) 1]> h) [] /\
  send_channel.new n h =
    Ret (send_channel.mk (fresh (dom h)))
        (<[fresh (dom h) := mk_cell (Core.new n) 1]> h) [].
Proof.
  split; [|split; reflexivity].
  apply not_elem_of_dom, is_fresh.
Qed.

End handle_lifecycle.

(** ** One channel does not disturb another; the invariants of all *)

Section handle_frames.
Context {T : Type}.
Implicit Types (h : heap T) (p : loc) (cl : cell T) (c : _channel T).



Lemma frames_deref {A} p (m : M (_channel T) A) : frames p (SharedPtr.deref p m).
Proof.
  intros h a h' w Hd p' Hne. unfold SharedPtr.deref in Hd.
  destruct (h !! p) as [cl|]; [|discriminate].
  destruct (m (obj cl)); try discriminate.
  injection Hd as _ <- _. apply lookup_insert_ne. congruence.
Qed.









End handle_frames.

Section handle_invariants.
Context {T : Type}.
Implicit Types (h : heap T) (p : loc) (cl : cell T) (c : _channel T).

Lemma ret_transition (o : call T) c v c' w :
  exec o c = Ret v c' w -> transition c c'.
Proof.
  intros He. apply (next_transition o). unfold next. rewrite He. reflexivity.
Qed.

Lemma send_ret_transition (t : T) c b c' w :
  Core.send t c = Ret b c' w -> transition c c'.
Proof.
  intros Hs. apply (ret_transition (call_send t) c (v_bool b) c' (w ++ [])).
  unfold exec, mbind, M_mbind. rewrite (bind_ret _ _ _ _ _ _ Hs). reflexivity.
Qed.

Lemma recv_ret_transition c (t : T) c' w :
  Core.recv c = Ret t c' w -> transition c c'.
Proof.
  intros Hs. apply (ret_transition call_recv c (v_item t) c' (w ++ [])).
  unfold exec, mbind, M_mbind. rewrite (bind_ret _ _ _ _ _ _ Hs). reflexivity.
Qed.

Lemma recv_immed_ret_transition c (o : option T) c' w :
  Core.recv_immed c = Ret o c' w -> transition c c'.
Proof.
  intros Hs. apply (ret_transition call_recv_immed c (v_opt o) c' (w ++ [])).
  unfold exec, mbind, M_mbind. rewrite (bind_ret _ _ _ _ _ _ Hs). reflexivity.
Qed.

Lemma closed_ret_transition c b c' w :
  Core.closed c = Ret b c' w -> transition c c'.
Proof. rewrite closed_ret. intros [= _ <- _]. constructor. Qed.

Lemma close_ret_transition c u c' w :
  Core.close c = Ret u c' w -> transition c c'.
Proof.
  rewrite close_cases. destruct (_closed c) eqn:Hc; [discriminate|].
  intros [= _ <- _]. apply tr_close, Hc.
Qed.

Lemma flush_ret_transition c u c' w :
  Core.flush c = Ret u c' w -> transition c c'.
Proof. rewrite flush_ret. intros [= _ <- _]. apply tr_flush. Qed.

Lemma heap_ok_insert h p cl :
  heap_ok h ->
  (1 <= use_count cl)%nat ->
  closed_is_empty (obj cl) -> within_capacity (obj cl) ->
  heap_ok (<[p := cl]> h).
Proof.
  intros Hok Hn He Hw p' cl'. rewrite lookup_insert.
  destruct (decide (p = p')) as [->|Hne].
  - intros [= <-]. auto.
  - apply Hok.
Qed.

Lemma heap_ok_delete h p : heap_ok h -> heap_ok (delete p h).
Proof.
  intros Hok p' cl'. rewrite lookup_delete.
  destruct (decide (p = p')); [discriminate | apply Hok].
Qed.

Lemma keeps_ok_ret {A} (a : A) : keeps_ok (T:=T) (mret a).
Proof. intros h a' h' w Hok [= _ <- _]. exact Hok. Qed.

Lemma keeps_ok_bind {A B} (m : M (heap T) A) (k : A -> M (heap T) B) :
  keeps_ok m -> (forall a, keeps_ok (k a)) -> keeps_ok (M_bind k m).
Proof.
  intros Hm Hk h b h2 w Hok Hb.
  apply bind_ret_inv in Hb as (a & h1 & w1 & w2 & H1 & H2 & _).
  apply (Hk a _ _ _ _ (Hm _ _ _ _ Hok H1) H2).
Qed.

Lemma keeps_ok_if {A} (b : bool) (m1 m2 : M (heap T) A) :
  keeps_ok m1 -> keeps_ok m2 -> keeps_ok (if b then m1 else m2).
Proof. destruct b; auto. Qed.

Lemma keeps_ok_deref {A} p (m : M (_channel T) A) :
  (forall c a c' w, m c = Ret a c' w -> transition c c') ->
  keeps_ok (SharedPtr.deref p m).
Proof.
  intros Hm h a h' w Hok Hd. unfold SharedPtr.deref in Hd.
  destruct (h !! p) as [cl|] eqn:Hp; [|discriminate].
  destruct (m (obj cl)) as [a' o w'| | | |] eqn:Hmo; try discriminate.
  injection Hd as _ <- _.
  destruct (Hok p cl Hp) as (Hn & He & Hw).
  apply Hm in Hmo.
  apply heap_ok_insert; cbn; auto.
  - eapply transition_closed_is_empty; eassumption.
  - eapply transition_within_capacity; eassumption.
Qed.

Lemma keeps_ok_make_shared (n : N) : keeps_ok (T:=T) (SharedPtr.make_shared n).
Proof.
  intros h a h' w Hok [= _ <- _].
  apply heap_ok_insert; cbn; auto.
  - apply new_closed_is_empty.
  - apply new_within_capacity.
Qed.

Lemma keeps_ok_copy p : keeps_ok (T:=T) (SharedPtr.copy p).
Proof.
  intros h a h' w Hok Hc. unfold SharedPtr.copy in Hc.
  destruct (h !! p) as [cl|] eqn:Hp; [|discriminate].
  injection Hc as _ <- _.
  destruct (Hok p cl Hp) as (Hn & He & Hw).
  apply heap_ok_insert; cbn; auto with arith.
Qed.

Lemma keeps_ok_release p : keeps_ok (T:=T) (SharedPtr.release p).
Proof.
  intros h a h' w Hok Hr. unfold SharedPtr.release, mbind, M_mbind in Hr.
  apply bind_ret_inv in Hr as (h0 & h1 & w1 & w2 & [= <- <- <-] & Hr & _).
  destruct (h !! p) as [cl|] eqn:Hp; [|discriminate].
  destruct (Hok p cl Hp) as (Hn & He & Hw).
  destruct (use_count cl) as [|[|n]]; [discriminate| |].
  - apply bind_ret_inv in Hr as (u & h1 & w3 & w4 & Hd & Hm & _).
    unfold modify in Hm. simplify_eq.
    intros p' cl'. rewrite lookup_delete.
    destruct (decide (p = p')) as [|Hne]; [discriminate|].
    rewrite (frames_deref p _ _ _ _ _ Hd p') by congruence.
    apply Hok.
  - unfold modify in Hr. simplify_eq.
    apply heap_ok_insert; cbn; auto with arith.
Qed.

Lemma keeps_ok_close_body p :
  keeps_ok (T:=T)
    (b ← SharedPtr.deref p Core.closed;
     (if negb b then SharedPtr.deref p Core.close else mret tt);;
     SharedPtr.deref p Core.flush).
Proof.
  apply keeps_ok_bind; [apply keeps_ok_deref, closed_ret_transition|].
  intros b. apply keeps_ok_bind;
    [|intros _; apply keeps_ok_deref, flush_ret_transition].
  apply keeps_ok_if; [apply keeps_ok_deref, close_ret_transition|].
  apply keeps_ok_ret.
Qed.

Lemma keeps_ok_dtor_body p :
  keeps_ok (T:=T)
    (b ← SharedPtr.deref p Core.closed;
     (if negb b then SharedPtr.deref p Core.close else mret tt);;
     SharedPtr.release p).
Proof.
  apply keeps_ok_bind; [apply keeps_ok_deref, closed_ret_transition|].
  intros b. apply keeps_ok_bind; [|intros _; apply keeps_ok_release].
  apply keeps_ok_if; [apply keeps_ok_deref, close_ret_transition|].
  apply keeps_ok_ret.
Qed.

Lemma hexec_keeps_ok (o : hcall T) : keeps_ok (hexec o).
Proof.
  destruct o as [n|n|[p0]|[p0] x|[p0]|[p0]|[p0]|[p0]|[p0]|[p0] x|[p0]|[p0]|[p0]];
    unfold hexec, channel.new, send_channel.new, channel.close, channel.dtor,
      send_channel.close, send_channel.dtor, channel.closed,
      send_channel.closed, channel.send, send_channel.send, channel.recv,
      channel.recv_immed, send_channel.of_channel, mbind, M_mbind;
    cbn [channel.ch send_channel.ch].
  - apply keeps_ok_bind; [|intros; apply keeps_ok_ret].
    apply keeps_ok_bind; [apply keeps_ok_make_shared | intros; apply keeps_ok_ret].
  - apply keeps_ok_bind; [|intros; apply keeps_ok_ret].
    apply keeps_ok_bind; [apply keeps_ok_make_shared | intros; apply keeps_ok_ret].
  - apply keeps_ok_bind; [|intros; apply keeps_ok_ret].
    apply keeps_ok_bind; [apply keeps_ok_copy | intros; apply keeps_ok_ret].
  - apply keeps_ok_bind; [|intros; apply keeps_ok_ret].
    apply keeps_ok_deref, send_ret_transition.
  - apply keeps_ok_bind; [|intros; apply keeps_ok_ret].
    apply keeps_ok_deref, recv_ret_transition.
  - apply keeps_ok_bind; [|intros; apply keeps_ok_ret].
    apply keeps_ok_bind; [apply keeps_ok_deref, recv_immed_ret_transition|].
    intros [x|]; [apply keeps_ok_ret | intros ? ? ? ? ? [=]].
  - apply keeps_ok_bind; [|intros; apply keeps_ok_ret].
    apply keeps_ok_deref, closed_ret_transition.
  - apply keeps_ok_close_body.
  - apply keeps_ok_dtor_body.
  - apply keeps_ok_bind; [|intros; apply keeps_ok_ret].
    apply keeps_ok_deref, send_ret_transition.
  - apply keeps_ok_bind; [|intros; apply keeps_ok_ret].
    apply keeps_ok_deref, closed_ret_transition.
  - apply keeps_ok_close_body.
  - apply keeps_ok_dtor_body.
Qed.

Lemma hrun_keeps_ok (os : list (hcall T)) : forall h h',
  heap_ok h -> hrun os h = Some h' -> heap_ok h'.
Proof.
  induction os as [|o os IH]; cbn; intros h h' Hok.
  - intros [= <-]. exact Hok.
  - unfold hnext. destruct (hexec o h) as [[] h1 w| | | |] eqn:He;
      try discriminate.
    + apply IH, (hexec_keeps_ok o h tt h1 w Hok He).
    + apply IH, Hok.
    + apply IH, Hok.
Qed.

(** X16. Whatever a program does with handles, from an empty free store on
    (construct, narrow, send, receive, close, query, destroy, in any order
    and on any handles), every core alive has at least one owner, holds no
    more items than a positive capacity allows, and is empty if it is
    closed. *)
Theorem heap_invariants (os : list (hcall T)) h p cl :
  hrun os ∅ = Some h ->
  h !! p = Some cl ->
  (1 <= use_count cl)%nat /\
  (_closed (obj cl) = true -> q (obj cl) = []) /\
  ((0 < cap (obj cl))%N -> (Core.size (obj cl) <= cap (obj cl))%N).
Proof.
  intros Hrun Hp.
  assert (Hok : heap_ok h).
  { apply (hrun_keeps_ok os ∅ h); [|exact Hrun].
    intros p' cl'. rewrite lookup_empty. discriminate. }
  exact (Hok p cl Hp).
Qed.

(** X17. [t >> ch] on a closed channel drops the item without a trace, for
    each of the three [operator>>]: the call returns, nothing is pushed,
    the state is as it was, and the [false] of [send] is lost. *)
Theorem shr_closed_drops h p cl (t : T) :
  h !! p = Some cl ->
  _closed (obj cl) = true ->
  core_shr t (obj cl) = Ret tt (obj cl) [] /\
  channel_shr (channel.mk p) t h = Ret tt h [] /\
  send_channel_shr (send_channel.mk p) t h = Ret tt h [].
Proof.
  intros Hp Hc.
  assert (Hs : Core.send t (obj cl) = Ret false (obj cl) [])
    by apply send_closed, Hc.
  assert (Hd : SharedPtr.deref p (Core.send t) h = Ret false h []).
  { rewrite (deref_ret _ h p cl _ _ _ Hp Hs).
    rewrite cell_eta, insert_id by exact Hp. reflexivity. }
  unfold core_shr, channel_shr, send_channel_shr, channel.send,
    send_channel.send, mbind, M_mbind. cbn [channel.ch send_channel.ch].
  rewrite (bind_ret _ _ _ _ _ _ Hd), (bind_ret _ _ _ _ _ _ Hs).
  repeat split; reflexivity.
Qed.

(** X18. [x >> ch; y << ch;] through a [channel] handle on an open, empty core
    gives [y] the value of [x] and leaves the free store as it was. *)
Theorem channel_shr_shl_round_trip h p cl (x : T) :
  h !! p = Some cl ->
  _closed (obj cl) = false ->
  q (obj cl) = [] ->
  (channel_shr (channel.mk p) x;; channel_shl (channel.mk p)) h =
    Ret x h [notify_one _empty; notify_one _full].
Proof.
  intros Hp Hc Hq.
  assert (Hs : Core.send x (obj cl) =
               Ret true (Core.set_q [x] (obj cl)) [notify_one _empty]).
  { rewrite send_cases, Hc. unfold Core.size. rewrite Hq.
    destruct (cap (obj cl)); reflexivity. }
  assert (Hr : Core.recv (Core.set_q [x] (obj cl)) =
               Ret x (obj cl) [notify_one _full]).
  { rewrite (recv_front _ x []) by (cbn; auto).
    destruct (obj cl) as [n l b]. cbn in Hq. subst l. reflexivity. }
  set (h1 := <[p := mk_cell (Core.set_q [x] (obj cl)) (use_count cl)]> h).
  assert (Hshr : channel_shr (channel.mk p) x h = Ret tt h1 [notify_one _empty]).
  { unfold channel_shr, channel.send, mbind, M_mbind. cbn [channel.ch].
    rewrite (bind_ret _ _ _ _ _ _ (deref_ret _ h p cl _ _ _ Hp Hs)).
    reflexivity. }
  assert (Hshl : channel_shl (channel.mk p) h1 = Ret x h [notify_one _full]).
  { unfold channel_shl, channel.recv, mbind, M_mbind. cbn [channel.ch].
    rewrite (bind_ret _ _ _ _ _ _
               (deref_ret _ h1 p _ _ _ _ (lookup_insert_eq _ _ _) Hr)).
    cbn. unfold h1. rewrite insert_insert_eq, cell_eta, insert_id by exact Hp.
    reflexivity. }
  unfold mbind, M_mbind. rewrite (bind_ret _ _ _ _ _ _ Hshr), Hshl.
  reflexivity.
Qed.

End handle_invariants.

(** ** The further theorems at concrete channels *)

Lemma blocked_sender_released_by_recv_witness :
  cap (mk_channel (T:=Z) 2 [10; 20] false) =
    Core.size (mk_channel (T:=Z) 2 [10; 20] false) /\
  Core.send 30 (mk_channel (T:=Z) 2 [10; 20] false) = Wait _full /\
  recv_by blocking (mk_channel (T:=Z) 2 [10; 20] false) =
    Ret (Some 10) (mk_channel 2 [20] false) [notify_one _full] /\
  Core.send_wake 30 (mk_channel (T:=Z) 2 [20] false) =
    Ret true (mk_channel 2 [20; 30] false) [notify_one _empty].
Proof.
  split; [reflexivity|].
  exact (blocked_sender_released_by_recv (mk_channel 2 [10; 20] false)
           30 10 [20] blocking eq_refl eq_refl eq_refl).
Defined.

Lemma blocked_sender_woken_by_close_witness :
  N.le (cap (mk_channel (T:=Z) 1 [10] false))
       (Core.size (mk_channel (T:=Z) 1 [10] false)) /\
  Core.send 20 (mk_channel (T:=Z) 1 [10] false) = Wait _full /\
  Core.close (mk_channel (T:=Z) 1 [10] false) =
    Ret tt (mk_channel 1 [] true) [notify_all _full; notify_all _empty] /\
  Core.send_wake 20 (mk_channel (T:=Z) 1 [] true) =
    Ret false (mk_channel 1 [] true) [].
Proof.
  assert (Hle : N.le (cap (mk_channel (T:=Z) 1 [10] false))
                     (Core.size (mk_channel (T:=Z) 1 [10] false)))
    by (intros Hgt; discriminate Hgt).
  split; [exact Hle|].
  exact (blocked_sender_woken_by_close (mk_channel 1 [10] false) 20 eq_refl
           ltac:(discriminate) Hle).
Defined.

Lemma flush_then_send_witness :
  _closed (mk_channel (T:=Z) 2 [1; 2] false) = false /\
  (Core.flush;; Core.send 3) (mk_channel (T:=Z) 2 [1; 2] false) =
    Ret true (mk_channel 2 [3] false) [notify_one _full; notify_one _empty].
Proof.
  split; [reflexivity|].
  exact (flush_then_send (mk_channel 2 [1; 2] false) 3 eq_refl).
Defined.

Lemma shr_shl_round_trip_witness :
  q (Core.new (T:=Z) 1) = [] /\
  (core_shr 5;; core_shl) (Core.new (T:=Z) 1) =
    Ret 5 (Core.new 1) [notify_one _empty; notify_one _full].
Proof.
  split; [reflexivity|].
  exact (shr_shl_round_trip (Core.new 1) 5 eq_refl eq_refl).
Defined.

Lemma items_conserved_witness :
  tally [call_send 1; call_send 2; call_recv; call_send 3; call_send 4;
         call_recv_immed] (Core.new (T:=Z) 2) [] [] =
    Some ([1; 2; 3], [1; 2], mk_channel 2 [3] false) /\
  [1; 2] ++ q (mk_channel (T:=Z) 2 [3] false) = q (Core.new (T:=Z) 2) ++ [1; 2; 3].
Proof.
  split; [reflexivity|].
  exact (items_conserved
           [call_send 1; call_send 2; call_recv; call_send 3; call_send 4;
            call_recv_immed]
           (Core.new 2) [1; 2; 3] [1; 2] (mk_channel 2 [3] false)
           eq_refl eq_refl).
Defined.

Lemma received_in_send_order_witness :
  tally [call_send 1; call_send 2; call_flush; call_send 3; call_recv]
        (Core.new (T:=Z) 2) [] [] =
    Some ([1; 2; 3], [3], mk_channel 2 [] false) /\
  ([3] ++ q (mk_channel (T:=Z) 2 [] false)) `sublist_of` [1; 2; 3] /\
  [3] `sublist_of` [1; 2; 3].
Proof.
  split; [reflexivity|].
  exact (received_in_send_order 2
           [call_send 1; call_send 2; call_flush; call_send 3; call_recv]
           [1; 2; 3] [3] (mk_channel 2 [] false) eq_refl).
Defined.

Lemma last_handle_dtor_frees_witness :
  ({[ 1%positive := mk_cell (mk_channel 2 [7] false) 1 ]} : heap Z) !! 1%positive =
    Some (mk_cell (mk_channel 2 [7] false) 1) /\
  channel.dtor (channel.mk 1)
    ({[ 1%positive := mk_cell (mk_channel 2 [7] false) 1 ]} : heap Z) =
    Ret tt (delete 1%positive {[ 1%positive := mk_cell (mk_channel 2 [7] false) 1 ]})
        [notify_all _full; notify_all _empty; notify_one _full].
Proof.
  split; [reflexivity|].
  exact (proj1 (last_handle_dtor_frees
                  {[ 1%positive := mk_cell (mk_channel 2 [7] false) 1 ]}
                  1%positive (mk_cell (mk_channel (T:=Z) 2 [7] false) 1)
                  eq_refl eq_refl)).
Defined.


Lemma after_handle_close_witness :
  shared_heap !! 1%positive = Some (mk_cell (mk_channel 2 [7] false) 2) /\
  (channel.close (channel.mk 1);; channel.recv_immed (channel.mk 1)) shared_heap =
    Throw bad_optional_access.
Proof.
  split; [reflexivity|].
  exact (proj2 (proj2 (proj2 (after_handle_close shared_heap 1%positive
                                (mk_cell (mk_channel 2 [7] false) 2) 0 eq_refl)))).
Defined.

Lemma narrowed_handle_shares_core_witness :
  ({[ 1%positive := mk_cell (Core.new 2) 1 ]} : heap Z) !! 1%positive =
    Some (mk_cell (Core.new 2) 1) /\
  (s ← send_channel.of_channel (channel.mk 1);
   send_channel.send s 7;;
   channel.recv (channel.mk 1))
    ({[ 1%positive := mk_cell (Core.new 2) 1 ]} : heap Z) =
    Ret 7 (<[1%positive := mk_cell (Core.new 2) 2]>
             {[ 1%positive := mk_cell (Core.new 2) 1 ]})
        [notify_one _empty; notify_one _full].
Proof.
  split; [reflexivity|].
  exact (narrowed_handle_shares_core
           {[ 1%positive := mk_cell (Core.new 2) 1 ]} 1%positive
           (mk_cell (Core.new (T:=Z) 2) 1) 7 eq_refl eq_refl eq_refl).
Defined.

Lemma narrow_then_dtor_restores_witness :
  ({[ 1%positive := mk_cell (mk_channel 2 [] true) 1 ]} : heap Z) !! 1%positive =
    Some (mk_cell (mk_channel 2 [] true) 1) /\
  (s ← send_channel.of_channel (channel.mk 1); send_channel.dtor s)
    ({[ 1%positive := mk_cell (mk_channel 2 [] true) 1 ]} : heap Z) =
    Ret tt {[ 1%positive := mk_cell (mk_channel 2 [] true) 1 ]} [].
Proof.
  split; [reflexivity|].
  exact (narrow_then_dtor_restores
           {[ 1%positive := mk_cell (mk_channel 2 [] true) 1 ]} 1%positive
           (mk_cell (mk_channel (T:=Z) 2 [] true) 1) eq_refl eq_refl (le_n 1)).
Defined.


Lemma heap_invariants_witness :
  hrun [h_channel 2; h_send (channel.mk 1) 7; h_narrow (channel.mk 1);
        h_send_channel 0; hs_dtor (send_channel.mk 1)] (∅ : heap Z) =
    Some (<[2%positive := mk_cell (Core.new 0) 1]>
            {[ 1%positive := mk_cell (mk_channel 2 [] true) 1 ]}) /\
  (1 <= 1)%nat /\
  (_closed (mk_channel (T:=Z) 2 [] true) = true ->
   q (mk_channel (T:=Z) 2 [] true) = []) /\
  ((0 < 2)%N -> (Core.size (mk_channel (T:=Z) 2 [] true) <= 2)%N).
Proof.
  assert (Hrun :
    hrun [h_channel 2; h_send (channel.mk 1) 7; h_narrow (channel.mk 1);
          h_send_channel 0; hs_dtor (send_channel.mk 1)] (∅ : heap Z) =
      Some (<[2%positive := mk_cell (Core.new 0) 1]>
              {[ 1%positive := mk_cell (mk_channel 2 [] true) 1 ]}))
    by (vm_compute; reflexivity).
  split; [exact Hrun|].
  exact (heap_invariants _ _ 1%positive (mk_cell (mk_channel 2 [] true) 1)
           Hrun eq_refl).
Defined.

Lemma shr_closed_drops_witness :
  ({[ 1%positive := mk_cell (mk_channel 2 [] true) 1 ]} : heap Z) !! 1%positive =
    Some (mk_cell (mk_channel 2 [] true) 1) /\
  channel_shr (channel.mk 1) 5
    ({[ 1%positive := mk_cell (mk_channel 2 [] true) 1 ]} : heap Z) =
    Ret tt {[ 1%positive := mk_cell (mk_channel 2 [] true) 1 ]} [].
Proof.
  split; [reflexivity|].
  exact (proj1 (proj2 (shr_closed_drops
                  {[ 1%positive := mk_cell (mk_channel 2 [] true) 1 ]}
                  1%positive (mk_cell (mk_channel (T:=Z) 2 [] true) 1) 5
                  eq_refl eq_refl))).
Defined.

Lemma channel_shr_shl_round_trip_witness :
  ({[ 1%positive := mk_cell (Core.new 1) 1 ]} : heap Z) !! 1%positive =
    Some (mk_cell (Core.new 1) 1) /\
  (channel_shr (channel.mk 1) 5;; channel_shl (channel.mk 1))
    ({[ 1%positive := mk_cell (Core.new 1) 1 ]} : heap Z) =
    Ret 5 {[ 1%positive := mk_cell (Core.new 1) 1 ]}
        [notify_one _empty; notify_one _full].
Proof.
  split; [reflexivity|].
  exact (channel_shr_shl_round_trip
           {[ 1%positive := mk_cell (Core.new 1) 1 ]} 1%positive
           (mk_cell (Core.new (T:=Z) 1) 1) 5 eq_refl eq_refl eq_refl).
Defined.
